(** * Verification of the media assembly core of douyin-publisher

    Shallow embedding of [src/feed_share.py] (subtitle production, time
    formatting, video composition) and [src/gen_cover.py] (cover text
    wrapping and the font-shrink loop).

    Modelling conventions:
    - a Python [str] is a list of Unicode code points ([pystr := list N]);
      the SRT time strings, which are pure ASCII, are [String.string];
    - Python floats are modelled as exact rationals [Q]; the concrete
      inputs used in counterexamples are chosen so that the float result
      agrees with the exact one;
    - a Python function that may raise returns an [outcome]. *)

From Stdlib Require Import QArith Qround Lqa ZArith Lia String Ascii.
From Stdlib Require Import Numbers.DecimalString.
From stdpp Require Import base list gmap strings.

Open Scope list_scope.
Open Scope Q_scope.

(** ** Python values *)

(** Code point of a Python character. *)
Abbreviation pychar := N.
(** A Python [str]. *)
Abbreviation pystr := (list N).

(** Result of a Python call: a return value, a raised exception, or a
    loop that did not terminate. *)
Inductive exn := ValueError | TypeError | IndexError.

Inductive outcome (A : Type) :=
| Return (a : A)
| Raise (e : exn)
| Diverge.
Arguments Return {A} a.
Arguments Raise {A} e.
Arguments Diverge {A}.

(** [str.isspace] for one code point (the Unicode whitespace set). *)
Definition py_isspace (c : pychar) : bool :=
  (9 <=? c)%N && (c <=? 13)%N || (28 <=? c)%N && (c <=? 32)%N
  || (c =? 133)%N || (c =? 160)%N || (c =? 5760)%N
  || (8192 <=? c)%N && (c <=? 8202)%N
  || (c =? 8232)%N || (c =? 8233)%N || (c =? 8239)%N || (c =? 8287)%N
  || (c =? 12288)%N.

Fixpoint lstrip (s : pystr) : pystr :=
  match s with
  | [] => []
  | c :: s' => if py_isspace c then lstrip s' else s
  end.

(** [str.strip()] *)
Definition strip (s : pystr) : pystr := rev (lstrip (rev (lstrip s))).

(** ** Python numerics on floats (as rationals) *)

(** [x // y] for floats: the floor of the quotient. *)
Definition py_floordiv (x y : Q) : Q := inject_Z (Qfloor (x / y)).

(** [x % y] for floats: [x - y * floor(x / y)], with the sign of [y]. *)
Definition py_mod (x y : Q) : Q := x - y * py_floordiv x y.

(** [int(x)] for a float: truncation toward zero. *)
Definition py_int (x : Q) : Z :=
  if Qle_bool 0 x then Qfloor x else (- Qfloor (- x))%Z.

(** ** [f"{n:0wd}"]: zero-padded decimal rendering of an integer *)

Definition dec_digits (n : N) : string :=
  NilEmpty.string_of_uint (N.to_uint n).

Fixpoint zeros (k : nat) : string :=
  match k with
  | O => EmptyString
  | S k' => String "0" (zeros k')
  end.

Definition zpad (w : nat) (s : string) : string :=
  append (zeros (w - String.length s)) s.

(** A negative number keeps its sign in front of the zero padding, the
    sign counting in the width. *)
Definition fmt_0d (w : nat) (n : Z) : string :=
  if (n <? 0)%Z then String "-" (zpad (w - 1) (dec_digits (Z.to_N (- n))))
  else zpad w (dec_digits (Z.to_N n)).

(** ** The three [format_time] routines

    The source defines [format_time] three times, as local functions of
    [gen_subtitles_whisper] (lines 123-128), of [vtt_to_srt] (lines
    189-195) and, inside the cue loop, of [gen_subtitles] (lines
    300-305). Each is embedded separately. *)

Module Whisper.
Definition format_time (seconds : Q) : string :=
  let h := py_int (py_floordiv seconds 3600) in
  let m := py_int (py_floordiv (py_mod seconds 3600) 60) in
  let s := py_int (py_mod seconds 60) in
  let ms := py_int (py_mod seconds 1 * 1000) in
  append (fmt_0d 2 h) (append ":" (append (fmt_0d 2 m)
    (append ":" (append (fmt_0d 2 s) (append "," (fmt_0d 3 ms)))))).
End Whisper.

Module Vtt.
Definition format_time (seconds : Q) : string :=
  let h := py_int (py_floordiv seconds 3600) in
  let m := py_int (py_floordiv (py_mod seconds 3600) 60) in
  let s := py_int (py_mod seconds 60) in
  let ms := py_int (py_mod seconds 1 * 1000) in
  append (fmt_0d 2 h) (append ":" (append (fmt_0d 2 m)
    (append ":" (append (fmt_0d 2 s) (append "," (fmt_0d 3 ms)))))).
End Vtt.

Module Fallback.
Definition format_time (seconds : Q) : string :=
  let h := py_int (py_floordiv seconds 3600) in
  let m := py_int (py_floordiv (py_mod seconds 3600) 60) in
  let s := py_int (py_mod seconds 60) in
  let ms := py_int (py_mod seconds 1 * 1000) in
  append (fmt_0d 2 h) (append ":" (append (fmt_0d 2 m)
    (append ":" (append (fmt_0d 2 s) (append "," (fmt_0d 3 ms)))))).
End Fallback.


(** ** [str.split(sep)] and [str.replace("\\n", "\n")] *)

Fixpoint split_on (sep : pychar) (s : pystr) : list pystr :=
  match s with
  | [] => [[]]
  | c :: s' =>
      let r := split_on sep s' in
      if (c =? sep)%N then [] :: r
      else match r with
           | x :: r' => (c :: x) :: r'
           | [] => [[c]]
           end
  end.

(** Replaces each two-character sequence backslash, [n] by a newline. *)
Fixpoint replace_escaped_newline (s : pystr) : pystr :=
  match s with
  | 92%N :: 110%N :: s' => 10%N :: replace_escaped_newline s'
  | c :: s' => c :: replace_escaped_newline s'
  | [] => []
  end.

(** * gen_cover.py *)

(** ** [wrap_text] (lines 22-41)

    [width line] stands for [bbox[2] - bbox[0]] of
    [draw.textbbox((0, 0), line, font=font)]: the measured pixel width of
    [line] in the given font. *)

Definition wrap_step (width : pystr -> Z) (max_width : Z)
    (st : list pystr * pystr) (char : pychar) : list pystr * pystr :=
  let '(lines, current_line) := st in
  let test_line := current_line ++ [char] in
  if (width test_line <=? max_width)%Z then (lines, test_line)
  else ((match current_line with [] => lines | _ => lines ++ [current_line] end), [char]).

Definition wrap_text (width : pystr -> Z) (max_width : Z) (text : pystr)
    : list pystr :=
  let '(lines, current_line) := fold_left (wrap_step width max_width) text ([], []) in
  match current_line with [] => lines | _ => lines ++ [current_line] end.

(** ** The font-shrink loop of [gen_cover] (lines 93-148)

    [bbox_w size line] and [bbox_h size line] are the width and height of
    the bounding box of [line] drawn in the font of the given size (when
    no font file is found, [ImageFont.load_default()] is used for every
    size: the functions then ignore the size). *)

Record shrink_state := {
  title_size : Z;
  body_size : Z;
  spacing : Z;
  title_body_gap : Z
}.

(** One pass of the loop body: the fonts it creates, the wrapped lines
    and the total height. *)
Record attempt := {
  title_font_size : Z;
  body_font_size : Z;
  wrapped_title : list pystr;
  wrapped_body : list pystr;
  total_h : Z
}.

Definition width_px : Z := 1080.
Definition height_px : Z := 1920.
Definition margin : Z := 80.
Definition max_text_width : Z := width_px - margin * 2.
Definition max_content_height : Z := height_px - margin * 2.

Definition init_state : shrink_state :=
  {| title_size := 90; body_size := 60; spacing := 40; title_body_gap := 60 |}.

Section Cover.
Variable bbox_w : Z -> pystr -> Z.
Variable bbox_h : Z -> pystr -> Z.

Definition measure_attempt (title : pystr) (body_lines : list pystr)
    (st : shrink_state) : attempt :=
  let ts := title_size st in
  let bs := body_size st in
  let sp := spacing st in
  let wt := match title with
            | [] => []
            | _ => wrap_text (bbox_w ts) max_text_width title
            end in
  let wb := flat_map (wrap_text (bbox_w bs) max_text_width) body_lines in
  let h1 := fold_left (fun acc line => acc + bbox_h ts line + sp)%Z wt 0%Z in
  let h2 := match wt, wb with
            | _ :: _, _ :: _ => (h1 + (title_body_gap st - sp))%Z
            | _, _ => h1
            end in
  let h3 := fold_left (fun acc line => acc + bbox_h bs line + sp)%Z wb h2 in
  {| title_font_size := ts; body_font_size := bs;
     wrapped_title := wt; wrapped_body := wb; total_h := (h3 - sp)%Z |}.

(** [title_size -= 10] and the sizes derived from it with [int(x * r)]. *)
Definition shrink (st : shrink_state) : shrink_state :=
  let ts := (title_size st - 10)%Z in
  {| title_size := ts;
     body_size := py_int (inject_Z ts * (67 # 100));
     spacing := py_int (inject_Z ts * (4 # 10));
     title_body_gap := py_int (inject_Z ts * (67 # 100)) |}.

(** [while title_size >= 40: ...]. Each test of the loop condition costs
    one unit of [fuel]; [None] means the fuel ran out. The second
    component of the result is the last pass executed, whose fonts and
    lines the drawing code after the loop uses. *)
Fixpoint shrink_loop (title : pystr) (body_lines : list pystr) (fuel : nat)
    (st : shrink_state) (last : option attempt)
    : option (shrink_state * option attempt) :=
  match fuel with
  | O => None
  | S fuel' =>
      if (40 <=? title_size st)%Z then
        let a := measure_attempt title body_lines st in
        if (total_h a <=? max_content_height)%Z then Some (st, Some a)
        else shrink_loop title body_lines fuel' (shrink st) (Some a)
      else Some (st, last)
  end.

(** Lines 54 and 94-96: the title is the first line, stripped; the body
    is the remaining non-blank lines, stripped. *)
Definition parse_cover_text (text : pystr) : pystr * list pystr :=
  let text := replace_escaped_newline text in
  let raw_lines := split_on 10 text in
  let title := match raw_lines with l :: _ => strip l | [] => [] end in
  let body_lines := map strip (filter (fun l => strip l <> []) (tail raw_lines)) in
  (title, body_lines).

(** The layout computed by [gen_cover] before drawing: text parsing
    (lines 54, 94-96) and the shrink loop. The manifest and image writing
    are not modelled. A loop that never ran would leave [total_h]
    unbound. *)
Definition gen_cover_layout (text : pystr) : outcome (shrink_state * attempt) :=
  let '(title, body_lines) := parse_cover_text text in
  match shrink_loop title body_lines 7 init_state None with
  | Some (st, Some a) => Return (st, a)
  | Some (_, None) => Raise TypeError
  | None => Diverge
  end.

End Cover.

(** * feed_share.py: subtitles *)

(** A subtitle cue as the SRT writers print it: 1-based index, start and
    end in seconds, text. *)
Record cue := {
  cue_index : nat;
  cue_start : Q;
  cue_end : Q;
  cue_text : pystr
}.

Definition outcome_bind {A B} (m : outcome A) (k : A -> outcome B) : outcome B :=
  match m with
  | Return a => k a
  | Raise e => Raise e
  | Diverge => Diverge
  end.

Definition Q_of_nat (n : nat) : Q := inject_Z (Z.of_nat n).

(** ** [gen_subtitles] (lines 277-313): the duration-proportional
    fallback *)

(** The character class [[。！？\n]]. *)
Definition is_sentence_delim (c : pychar) : bool :=
  (c =? 12290)%N || (c =? 65281)%N || (c =? 65311)%N || (c =? 10)%N.

(** [re.split(r'[。！？\n]+', s)]: the pieces between maximal runs of
    delimiters; [prev_delim] tells whether the previous character was a
    delimiter (so the current one extends the same match). *)
Fixpoint re_split_runs (prev_delim : bool) (s : pystr) : list pystr :=
  match s with
  | [] => [[]]
  | c :: s' =>
      if is_sentence_delim c then
        if prev_delim then re_split_runs true s' else [] :: re_split_runs true s'
      else match re_split_runs false s' with
           | x :: r => (c :: x) :: r
           | [] => [[c]]
           end
  end.

Definition split_sentences (text : pystr) : list pystr :=
  let sentences := map strip (filter (fun s => strip s <> []) (re_split_runs false text)) in
  match sentences with
  | [] => [text]
  | _ => sentences
  end.

Definition gen_subtitles (text : pystr) (duration : Q) : list cue :=
  let sentences := split_sentences text in
  let time_per_sentence := duration / Q_of_nat (length sentences) in
  imap (fun i sentence =>
          {| cue_index := S i;
             cue_start := Q_of_nat i * time_per_sentence;
             cue_end := Q_of_nat (S i) * time_per_sentence - (1 # 10);
             cue_text := sentence |}) sentences.

(** ** [vtt_to_srt.split_text] (lines 197-222) *)

(** The characters [，。！？、；：]. *)
Definition is_split_punct (c : pychar) : bool :=
  (c =? 65292)%N || (c =? 12290)%N || (c =? 65281)%N || (c =? 65311)%N
  || (c =? 12289)%N || (c =? 65307)%N || (c =? 65306)%N.

(** The punctuation pass: state [(segments, current)]. *)
Definition punct_step (max_chars : nat) (st : list pystr * pystr) (char : pychar)
    : list pystr * pystr :=
  let '(segments, current) := st in
  let current := current ++ [char] in
  if is_split_punct char && (Nat.div max_chars 2 <=? length current)%nat
  then (segments ++ [current], [])
  else (segments, current).

Definition punct_segments (max_chars : nat) (text : pystr) : list pystr :=
  let '(segments, current) := fold_left (punct_step max_chars) text ([], []) in
  match current with [] => segments | _ => segments ++ [current] end.

(** [while len(seg) > max_chars: ...; if seg: ...] for one segment. Each
    loop test costs one unit of fuel; [None] is a loop that does not
    terminate within the fuel (with [max_chars = 0] it never does). *)
Fixpoint force_split (fuel max_chars : nat) (seg : pystr) : option (list pystr) :=
  match fuel with
  | O => None
  | S fuel' =>
      if (max_chars <? length seg)%nat then
        match force_split fuel' max_chars (drop max_chars seg) with
        | Some r => Some (take max_chars seg :: r)
        | None => None
        end
      else Some (match seg with [] => [] | _ => [seg] end)
  end.

Fixpoint force_split_all (max_chars : nat) (segments : list pystr)
    : option (list pystr) :=
  match segments with
  | [] => Some []
  | seg :: rest =>
      match force_split (S (length seg)) max_chars seg, force_split_all max_chars rest with
      | Some r1, Some r2 => Some (r1 ++ r2)
      | _, _ => None
      end
  end.

Definition split_text (text : pystr) (max_chars : nat) : outcome (list pystr) :=
  if (length text <=? max_chars)%nat then Return [text]
  else match force_split_all max_chars (punct_segments max_chars text) with
       | Some [] => Return [text]
       | Some result => Return result
       | None => Diverge
       end.

(** ** The re-splitting loop of [vtt_to_srt] (lines 258-272)

    Its input is [raw_subtitles], the parsed cues [(start, end, text)]. *)

Definition part_cues (block_num : nat) (start end_ : Q) (text_parts : list pystr)
    : list cue :=
  let duration := end_ - start in
  let time_per_part := duration / Q_of_nat (length text_parts) in
  imap (fun j part =>
          {| cue_index := block_num + j;
             cue_start := start + Q_of_nat j * time_per_part;
             cue_end := start + Q_of_nat (S j) * time_per_part - (5 # 100);
             cue_text := part |}) text_parts.

Fixpoint resplit (max_chars_per_line block_num : nat)
    (raw_subtitles : list (Q * Q * pystr)) : outcome (list cue) :=
  match raw_subtitles with
  | [] => Return []
  | (start, end_, text) :: rest =>
      outcome_bind (split_text text max_chars_per_line) (fun text_parts =>
      outcome_bind (resplit max_chars_per_line (block_num + length text_parts) rest)
        (fun cues => Return (part_cues block_num start end_ text_parts ++ cues)))
  end.

Definition vtt_cues (max_chars_per_line : nat) (raw_subtitles : list (Q * Q * pystr))
    : outcome (list cue) :=
  resplit max_chars_per_line 1 raw_subtitles.

(** ** [gen_subtitles_whisper] (lines 90-164), after transcription

    The input is the list of words [(text, start, end)], texts already
    stripped. Start and end are [None] until the first word is seen. *)

Record wcue := {
  wcue_index : nat;
  wcue_start : option Q;
  wcue_end : option Q;
  wcue_text : pystr
}.

Record wstate := {
  srt_blocks : list wcue;
  block_num : nat;
  current_text : pystr;
  current_start : option Q;
  current_end : option Q
}.

Definition whisper_step (max_chars : nat) (st : wstate) (word : pystr * Q * Q)
    : wstate :=
  let '(wtext, wstart, wend) := word in
  match wtext with
  | [] => st
  | _ =>
    let cs := match current_start st with None => Some wstart | s => s end in
    if (max_chars <? length (current_text st) + length wtext)%nat
       && negb (bool_decide (current_text st = []))
    then {| srt_blocks := srt_blocks st ++
              [{| wcue_index := block_num st; wcue_start := cs;
                  wcue_end := current_end st; wcue_text := current_text st |}];
            block_num := S (block_num st);
            current_text := wtext;
            current_start := Some wstart;
            current_end := Some wend |}
    else {| srt_blocks := srt_blocks st;
            block_num := block_num st;
            current_text := current_text st ++ wtext;
            current_start := cs;
            current_end := Some wend |}
  end.

Definition whisper_init : wstate :=
  {| srt_blocks := []; block_num := 1; current_text := [];
     current_start := None; current_end := None |}.

(** [None] is the early [return False] on an empty word list. *)
Definition whisper_cues (max_chars : nat) (words : list (pystr * Q * Q))
    : option (list wcue) :=
  match words with
  | [] => None
  | _ =>
    let st := fold_left (whisper_step max_chars) words whisper_init in
    Some (match current_text st with
          | [] => srt_blocks st
          | _ => srt_blocks st ++
                   [{| wcue_index := block_num st; wcue_start := current_start st;
                       wcue_end := current_end st; wcue_text := current_text st |}]
          end)
  end.

(** * feed_share.py: [gen_video] (lines 316-379) *)

(** The file system: path to contents. *)
Abbreviation fsys := (gmap string string).

(** [str.strip()] on an ASCII string. *)
Fixpoint lstrip_ascii (s : string) : string :=
  match s with
  | EmptyString => EmptyString
  | String c s' =>
      if py_isspace (N.of_nat (nat_of_ascii c)) then lstrip_ascii s' else s
  end.

Fixpoint rev_ascii (s : string) : string :=
  match s with
  | EmptyString => EmptyString
  | String c s' => append (rev_ascii s') (String c EmptyString)
  end.

Definition strip_ascii (s : string) : string :=
  rev_ascii (lstrip_ascii (rev_ascii (lstrip_ascii s))).

(** [s.replace(a, b)] for a single character [a] and a string [b]. *)
Fixpoint replace_char (a : ascii) (b : string) (s : string) : string :=
  match s with
  | EmptyString => EmptyString
  | String c s' =>
      if Ascii.eqb c a then append b (replace_char a b s')
      else String c (replace_char a b s')
  end.

(** The encoder job: the fixed [ffmpeg] argument list
    [-y -loop 1 -i image -i audio [-vf filter] -c:v libx264 -tune stillimage
     -c:a aac -b:a 192k -pix_fmt yuv420p -shortest -t duration output]. *)
Record ffmpeg_job := {
  job_image : string;
  job_audio : string;
  job_filter : option string;
  job_duration : Q;
  job_output : string
}.

Definition subtitle_filter (temp_srt : string) : string :=
  let srt_path_escaped :=
    replace_char ":" "\:" (replace_char "\" "/" temp_srt) in
  append "subtitles=" (append srt_path_escaped
    ":force_style='FontSize=48,FontName=Noto Sans CJK SC,PrimaryColour=&HFFFFFF,OutlineColour=&H000000,Outline=3,Shadow=1,Alignment=5,MarginL=0,MarginR=0,MarginV=0'").

Section Video.
(** [ffprobe]: return code and standard output for an audio path. *)
Variable ffprobe : fsys -> string -> Z * string.
(** [ffmpeg]: return code and the file system after the run. *)
Variable ffmpeg : fsys -> ffmpeg_job -> Z * fsys.
(** Python's [float()] on a string; [None] is a [ValueError]. *)
Variable py_float : string -> option Q.
(** [tempfile.gettempdir()] *)
Variable tmpdir : string.

Definition temp_srt : string := append tmpdir "/temp_subtitles.srt".

Definition gen_video (fs : fsys) (image audio output : string)
    (subtitles : option string) : outcome bool * fsys :=
  let '(probe_rc, probe_stdout) := ffprobe fs audio in
  if negb (probe_rc =? 0)%Z then (Return false, fs)
  else match py_float (strip_ascii probe_stdout) with
  | None => (Raise ValueError, fs)
  | Some duration =>
      let '(filter, fs1) :=
        match subtitles with
        | Some p =>
            match fs !! p with
            | Some contents => (Some (subtitle_filter temp_srt), <[temp_srt := contents]> fs)
            | None => (None, fs)
            end
        | None => (None, fs)
        end in
      let '(rc, fs2) := ffmpeg fs1 {| job_image := image; job_audio := audio;
                                     job_filter := filter; job_duration := duration;
                                     job_output := output |} in
      (Return (rc =? 0)%Z, fs2)
  end.
End Video.

(** A parser for plain decimal literals ([-]digits[.digits]), used to
    instantiate Python's [float()] on concrete probe outputs. Python's
    [float()] also accepts exponents, [inf] and [nan]; this parser rejects
    them, so it is only used on inputs outside those forms. *)
Fixpoint take_digits (s : string) (acc : Z) (n : nat) : Z * nat * string :=
  match s with
  | String c s' =>
      let d := (Z.of_nat (nat_of_ascii c) - 48)%Z in
      if (0 <=? d)%Z && (d <=? 9)%Z then take_digits s' (acc * 10 + d)%Z (S n)
      else (acc, n, s)
  | EmptyString => (acc, n, EmptyString)
  end.

Definition py_float_decimal (s : string) : option Q :=
  let '(sign, s1) :=
    match s with
    | String "-" r => ((-1)%Z, r)
    | String "+" r => (1%Z, r)
    | _ => (1%Z, s)
    end in
  let '(ip, ni, s2) := take_digits s1 0 0 in
  match s2 with
  | EmptyString => if (ni =? 0)%nat then None else Some (inject_Z (sign * ip))
  | String "." s3 =>
      let '(fp, nf, s4) := take_digits s3 0 0 in
      match s4 with
      | EmptyString =>
          if (ni + nf =? 0)%nat then None
          else Some (inject_Z sign * (inject_Z ip + inject_Z fp / inject_Z (10 ^ Z.of_nat nf)))
      | _ => None
      end
  | _ => None
  end.

(** * Properties of cue sequences *)

Definition indices_contiguous (cs : list cue) : Prop :=
  map cue_index cs = seq 1 (length cs).

Definition cues_well_timed (cs : list cue) : Prop :=
  Forall (fun c => cue_start c < cue_end c) cs.

Fixpoint cues_chained (cs : list cue) : Prop :=
  match cs with
  | c1 :: ((c2 :: _) as rest) => cue_end c1 <= cue_start c2 /\ cues_chained rest
  | _ => True
  end.

(** The cues of the word-timestamp mode are numbered 1..N. *)
Definition wcues_indices (cs : list wcue) : Prop :=
  map wcue_index cs = seq 1 (length cs).

(** A cue of the word-timestamp mode has both times and starts before it
    ends. *)
Definition wcue_timed (c : wcue) : Prop :=
  exists s e, wcue_start c = Some s /\ wcue_end c = Some e /\ s < e.

(** The cue [c1] ends no later than the cue [c2] starts. *)
Definition wcue_before (c1 c2 : wcue) : Prop :=
  exists e s, wcue_end c1 = Some e /\ wcue_start c2 = Some s /\ e <= s.

Fixpoint wcues_chained (cs : list wcue) : Prop :=
  match cs with
  | c1 :: ((c2 :: _) as rest) => wcue_before c1 c2 /\ wcues_chained rest
  | _ => True
  end.

(** Word timestamps as Whisper is meant to give them: every word starts
    before it ends, and ends no later than the next word starts. *)
Definition words_timed (words : list (pystr * Q * Q)) : Prop :=
  Forall (fun '(_, s, e) => s < e) words.

Fixpoint words_chained (words : list (pystr * Q * Q)) : Prop :=
  match words with
  | (_, _, e1) :: (((_, s2, _) :: _) as rest) => e1 <= s2 /\ words_chained rest
  | _ => True
  end.

(** The numbering invariant of the [gen_subtitles_whisper] loop. *)
Definition whisper_index_inv (st : wstate) : Prop :=
  wcues_indices (srt_blocks st) /\ block_num st = S (length (srt_blocks st)).

(** The timing invariant of the [gen_subtitles_whisper] loop: the saved
    cues are timed and in order; before the first non-empty word nothing
    is saved and no time is set; after it, the current cue has times, starts
    before it ends and starts no earlier than the last saved cue ends. *)
Definition whisper_timing_inv (st : wstate) : Prop :=
  Forall wcue_timed (srt_blocks st) /\ wcues_chained (srt_blocks st) /\
  (current_text st = [] ->
   srt_blocks st = [] /\ current_start st = None /\ current_end st = None) /\
  (current_text st <> [] ->
   exists cs ce, current_start st = Some cs /\ current_end st = Some ce /\ cs < ce /\
     match last (srt_blocks st) with
     | Some b => exists e, wcue_end b = Some e /\ e <= cs
     | None => True
     end).

(** Number of segments [split_text] cuts a text into. *)
Definition split_count (max_chars : nat) (text : pystr) : nat :=
  match split_text text max_chars with
  | Return parts => length parts
  | _ => 0
  end.

(** Parsed VTT cues each long enough for the 0.05 s gap of each of its
    segments. *)
Definition raw_long_enough (max_chars : nat) (raw : list (Q * Q * pystr)) : Prop :=
  Forall (fun '(start, end_, text) =>
            Q_of_nat (split_count max_chars text) * (1 # 20) < end_ - start) raw.

(** Parsed VTT cues in order, without overlap. *)
Fixpoint raw_chained (raw : list (Q * Q * pystr)) : Prop :=
  match raw with
  | (_, end1, _) :: (((start2, _, _) :: _) as rest) => end1 <= start2 /\ raw_chained rest
  | _ => True
  end.

(** Sum of the durations [end - start] of a cue list. *)
Definition total_duration (cs : list cue) : Q :=
  fold_right (fun c acc => (cue_end c - cue_start c) + acc) 0 cs.

(** A wrapped line either fits or is a single character. *)
Definition fits_or_single (width : pystr -> Z) (max_width : Z) (l : pystr) : Prop :=
  (width l <= max_width)%Z \/ length l = 1%nat.

(** A cue text of the word-timestamp mode is non-empty, and within the
    bound or one whole word. *)
Definition whisper_text_ok (max_chars : nat) (words : list (pystr * Q * Q))
    (t : pystr) : Prop :=
  t <> [] /\
  ((length t <= max_chars)%nat \/ exists ws we, In (t, ws, we) words).

Definition whisper_inv (max_chars : nat) (words : list (pystr * Q * Q))
    (st : wstate) : Prop :=
  Forall (fun c => whisper_text_ok max_chars words (wcue_text c)) (srt_blocks st) /\
  (current_text st = [] \/ whisper_text_ok max_chars words (current_text st)).

(** The SRT time string of [seconds]: hours, minutes, seconds and
    milliseconds, zero-padded to 2, 2, 2 and 3 digits. *)
Definition srt_time (h m s ms : Z) : string :=
  append (zpad 2 (dec_digits (Z.to_N h))) (append ":"
    (append (zpad 2 (dec_digits (Z.to_N m))) (append ":"
      (append (zpad 2 (dec_digits (Z.to_N s))) (append ","
        (zpad 3 (dec_digits (Z.to_N ms)))))))).

(** * Text helpers shared by the remaining functions *)

(** An ASCII literal as a Python [str]. *)
Definition ascii_pystr (s : string) : pystr :=
  map (fun a => N.of_nat (nat_of_ascii a)) (list_ascii_of_string s).

(** [s.startswith(p)] *)
Fixpoint is_prefix (p s : pystr) : bool :=
  match p, s with
  | [], _ => true
  | a :: p', c :: s' => (c =? a)%N && is_prefix p' s'
  | _ :: _, [] => false
  end.

(** [sub in s] *)
Fixpoint contains (sub s : pystr) : bool :=
  is_prefix sub s || match s with [] => false | _ :: s' => contains sub s' end.

(** [sep.join(l)] *)
Fixpoint join (sep : pystr) (l : list pystr) : pystr :=
  match l with
  | [] => []
  | [x] => x
  | x :: rest => x ++ sep ++ join sep rest
  end.

(** [text.split("\n")[0]] ([split] never returns an empty list). *)
Definition first_line (text : pystr) : pystr :=
  match split_on 10 text with l :: _ => l | [] => [] end.

(** [s[:k]] *)
Definition py_slice_to (s : pystr) (k : Z) : pystr :=
  if (0 <=? k)%Z then take (Z.to_nat k) s
  else take (Z.to_nat (Z.of_nat (length s) + k)) s.

(** The character class of [<], [>], [:], the double quote, [/], the
    backslash, [|], [?] and [*]. *)
Definition is_forbidden_name_char (c : pychar) : bool :=
  (c =? 60)%N || (c =? 62)%N || (c =? 58)%N || (c =? 34)%N || (c =? 47)%N
  || (c =? 92)%N || (c =? 124)%N || (c =? 63)%N || (c =? 42)%N.

(** * Directory names *)

(** [sanitize_dirname] of gen_cover.py (lines 16-19); the function of the
    same name in douyin.py (lines 21-24) has the same body. *)
Module GenCover.
Definition sanitize_dirname (text : pystr) (max_len : Z) : pystr :=
  let text := strip (first_line text) in
  let text := filter (fun c => negb (is_forbidden_name_char c)) text in
  py_slice_to text max_len.
End GenCover.

(** [sanitize_dirname] of feed_share.py (lines 33-38). *)
Module FeedShare.

(** [re.sub(r'_+', '_', s)]: [prev] tells whether the previous character
    was an underscore of the current run. *)
Fixpoint collapse_underscores (prev : bool) (s : pystr) : pystr :=
  match s with
  | [] => []
  | c :: s' =>
      if (c =? 95)%N then
        if prev then collapse_underscores true s' else c :: collapse_underscores true s'
      else c :: collapse_underscores false s'
  end.

Fixpoint lstrip_char (ch : pychar) (s : pystr) : pystr :=
  match s with
  | [] => []
  | c :: s' => if (c =? ch)%N then lstrip_char ch s' else s
  end.

(** [s.strip(ch)] for a one-character argument. *)
Definition strip_char (ch : pychar) (s : pystr) : pystr :=
  rev (lstrip_char ch (rev (lstrip_char ch s))).

Definition sanitize_dirname (text : pystr) (max_len : Z) : pystr :=
  let text := strip (first_line text) in
  let text := map (fun c => if is_forbidden_name_char c || py_isspace c then 95%N else c) text in
  let text := collapse_underscores false text in
  strip_char 95 (py_slice_to text max_len).

(** Lines 579-582 of [main]: [f.read().strip().split('\n', 1)], the title
    is the first piece, the content the second one or else the title. *)
Fixpoint split_once (sep : pychar) (s : pystr) : list pystr :=
  match s with
  | [] => [[]]
  | c :: s' =>
      if (c =? sep)%N then [[]; s']
      else match split_once sep s' with
           | x :: r => (c :: x) :: r
           | [] => [[c]]
           end
  end.

Definition read_title_content (file_text : pystr) : pystr * pystr :=
  let lines := split_once 10 (strip file_text) in
  let title := match lines with l :: _ => l | [] => [] end in
  let content := match lines with _ :: l :: _ => l | _ => title end in
  (title, content).

End FeedShare.

(** * Sensitive-word filtering and the feed script (share_feed.py,
    feed_share.py) *)

Section Sanitize.
(** [ci_eq c p]: the text character [c] matches the pattern character
    [p] under [re.IGNORECASE]. *)
Variable ci_eq : pychar -> pychar -> bool.
(** The class [\w] of [re] on [str] patterns. *)
Variable is_word : pychar -> bool.

Fixpoint ci_prefix (p s : pystr) : bool :=
  match p, s with
  | [], _ => true
  | a :: p', c :: s' => ci_eq c a && ci_prefix p' s'
  | _ :: _, [] => false
  end.

(** [re.sub(p, r, s, flags=re.IGNORECASE)] for a non-empty literal
    pattern [p]: each leftmost match is replaced and the scan resumes
    after it; [skip] counts the characters of the current match still to
    be passed over. *)
Fixpoint sub_literal (p r : pystr) (skip : nat) (s : pystr) : pystr :=
  match s with
  | [] => []
  | c :: s' =>
      match skip with
      | S k => sub_literal p r k s'
      | O =>
          if ci_prefix p s then r ++ sub_literal p r (pred (length p)) s'
          else c :: sub_literal p r 0 s'
      end
  end.

(** [re.sub(r'@\w+', r, s, flags=re.IGNORECASE)]: [in_run] is true while
    the greedy [\w+] of the current match goes on. *)
Fixpoint sub_mention (r : pystr) (in_run : bool) (s : pystr) : pystr :=
  match s with
  | [] => []
  | c :: s' =>
      if in_run && is_word c then sub_mention r true s'
      else match s' with
           | d :: _ =>
               if ci_eq c 64 && is_word d then r ++ sub_mention r true s'
               else c :: sub_mention r false s'
           | [] => [c]
           end
  end.

Inductive pattern := Literal (p : pystr) | Mention.

Definition re_sub (pat : pattern) (repl text : pystr) : pystr :=
  match pat with
  | Literal p => sub_literal p repl 0 text
  | Mention => sub_mention repl false text
  end.

(** The [replacements] dict of [sanitize_content] (feed_share.py lines
    43-50) and of [sanitize_for_douyin] (share_feed.py lines 69-76), in
    insertion order: 推特, Twitter, X.com, tweet, 推文 and the mention
    pattern ([@\w+], written [@[\w]+] in share_feed.py). *)
Definition sensitive_replacements : list (pattern * pystr) :=
  [(Literal [25512; 29305]%N, [26576; 24179; 21488]%N);
   (Literal (ascii_pystr "Twitter"), [26576; 24179; 21488]%N);
   (Literal (ascii_pystr "X.com"), [26576; 24179; 21488]%N);
   (Literal (ascii_pystr "tweet"), [24086; 23376]%N);
   (Literal [25512; 25991]%N, [24086; 23376]%N);
   (Mention, [])].

(** feed_share.py, [sanitize_content] (lines 41-53). *)
Definition sanitize_content (text : pystr) : pystr :=
  fold_left (fun text '(pattern, replacement) => re_sub pattern replacement text)
    sensitive_replacements text.

(** share_feed.py, [sanitize_for_douyin] (lines 66-79). *)
Definition sanitize_for_douyin (text : pystr) : pystr :=
  strip (fold_left (fun text '(pattern, replacement) => re_sub pattern replacement text)
           sensitive_replacements text).

(** share_feed.py, [parse_tweets] (lines 35-63). A tweet is the dict
    [{"author": ..., "content": [...]}]. *)
Record tweet := {
  author : pystr;
  content : list pystr
}.

(** ['Ad', '广告', 'Promoted', 'Subscribe', '订阅', '关注', 'Follow'] *)
Definition skip_keywords : list pystr :=
  [ascii_pystr "Ad"; [24191; 21578]%N; ascii_pystr "Promoted"; ascii_pystr "Subscribe";
   [35746; 38405]%N; [20851; 27880]%N; ascii_pystr "Follow"].

(** ['@' in line and ('·' in line or '•' in line or 'h' in line or 'm' in line)] *)
Definition is_header (line : pystr) : bool :=
  contains [64]%N line
  && (contains [183]%N line || contains [8226]%N line || contains [104]%N line
      || contains [109]%N line).

Definition parse_step (st : list tweet * tweet) (line : pystr) : list tweet * tweet :=
  let '(tweets, current_tweet) := st in
  let line := strip line in
  if bool_decide (line = []) then st
  else if is_header line then
    ((if bool_decide (content current_tweet = []) then tweets else tweets ++ [current_tweet]),
     {| author := line; content := [] |})
  else if bool_decide (author current_tweet = []) then st
  else if existsb (fun kw => contains kw line) skip_keywords then st
  else (tweets, {| author := author current_tweet;
                   content := content current_tweet ++ [line] |}).

Definition parse_tweets (ocr_text : pystr) : list tweet :=
  let '(tweets, current_tweet) :=
    fold_left parse_step (split_on 10 ocr_text) ([], {| author := []; content := [] |}) in
  if bool_decide (content current_tweet = []) then tweets else tweets ++ [current_tweet].

(** share_feed.py, [generate_script] (lines 113-132). *)

(** 今日网络见闻 *)
Definition script_title : pystr := [20170; 26085; 32593; 32476; 35265; 38395]%N.
(** 大家好，今天在网上看到几个有意思的事情，分享给大家。 *)
Definition greeting : pystr :=
  [22823; 23478; 22909; 65292; 20170; 22825; 22312; 32593; 19978; 30475; 21040; 20960;
   20010; 26377; 24847; 24605; 30340; 20107; 24773; 65292; 20998; 20139; 32473; 22823;
   23478; 12290]%N.
(** 好了，今天就分享到这里，觉得有意思的话点个赞吧！ *)
Definition closing : pystr :=
  [22909; 20102; 65292; 20170; 22825; 23601; 20998; 20139; 21040; 36825; 37324; 65292;
   35273; 24471; 26377; 24847; 24605; 30340; 35805; 28857; 20010; 36190; 21543; 65281]%N.

(** The lines [f"第{i}个，{content}"] of the loop, from position [i] on. *)
Fixpoint script_body (i : nat) (tweets : list tweet) : list pystr :=
  match tweets with
  | [] => []
  | tw :: rest =>
      let c := sanitize_for_douyin (join [32]%N (content tw)) in
      (if bool_decide (c = []) then []
       else [[31532]%N ++ ascii_pystr (dec_digits (N.of_nat i)) ++ [20010; 65292]%N ++ c])
      ++ script_body (S i) rest
  end.

Definition generate_script (tweets : list tweet) : pystr * pystr :=
  match tweets with
  | [] => ([], [])
  | _ => (script_title, join [10]%N (greeting :: script_body 1 tweets ++ [closing]))
  end.

End Sanitize.

(** * The VTT parser of [vtt_to_srt] (feed_share.py lines 177-256) *)

Section VttParse.
(** Python's [float()] on a [str]; [None] is a [ValueError]. *)
Variable py_float_str : pystr -> option Q.
(** The class [\d] of [re] on [str] patterns. *)
Variable is_decimal : pychar -> bool.
(** The characters for which [str.isdigit] holds. *)
Variable is_digit_char : pychar -> bool.

Definition py_isdigit (s : pystr) : bool :=
  bool_decide (s <> []) && forallb is_digit_char s.

(** [l[i]] *)
Definition list_get {A} (l : list A) (i : nat) : outcome A :=
  match nth_error l i with Some a => Return a | None => Raise IndexError end.

Definition float_o (s : pystr) : outcome Q :=
  match py_float_str s with Some q => Return q | None => Raise ValueError end.

(** [parse_time] (lines 183-187). *)
Definition parse_time (time_str : pystr) : outcome Q :=
  let time_str := map (fun c => if (c =? 44)%N then 46%N else c) time_str in
  let parts := split_on 58 time_str in
  outcome_bind (list_get parts 0) (fun p0 => outcome_bind (float_o p0) (fun f0 =>
  outcome_bind (list_get parts 1) (fun p1 => outcome_bind (float_o p1) (fun f1 =>
  outcome_bind (list_get parts 2) (fun p2 => outcome_bind (float_o p2) (fun f2 =>
  Return (f0 * 3600 + f1 * 60 + f2))))))).

(** The pattern [(\d{2}:\d{2}:\d{2})\.(\d{3})] at the head of [s]. *)
Definition time_match (s : pystr) : bool :=
  match s with
  | h1 :: h2 :: c1 :: m1 :: m2 :: c2 :: s1 :: s2 :: dot :: f1 :: f2 :: f3 :: _ =>
      forallb is_decimal [h1; h2; m1; m2; s1; s2; f1; f2; f3]
      && (c1 =? 58)%N && (c2 =? 58)%N && (dot =? 46)%N
  | _ => false
  end.

(** [re.sub(r'(\d{2}:\d{2}:\d{2})\.(\d{3})', r'\1,\2', line)]: a match
    keeps its 12 characters but the dot, which becomes a comma; [skip]
    counts the characters of the current match still to be copied (the
    dot is the fourth last). *)
Fixpoint sub_time_dot (skip : nat) (s : pystr) : pystr :=
  match s with
  | [] => []
  | c :: s' =>
      match skip with
      | S k => (if (k =? 3)%nat then 44%N else c) :: sub_time_dot k s'
      | O => if time_match s then c :: sub_time_dot 11 s' else c :: sub_time_dot 0 s'
      end
  end.

Definition cons_head (c : pychar) (r : list pystr) : list pystr :=
  match r with x :: r' => (c :: x) :: r' | [] => [[c]] end.

(** [s.split(sep)] for a non-empty separator: [skip] counts the
    characters of the current separator still to be passed over. *)
Fixpoint split_str (sep : pystr) (skip : nat) (s : pystr) : list pystr :=
  match s with
  | [] => [[]]
  | c :: s' =>
      match skip with
      | S k => split_str sep k s'
      | O =>
          if is_prefix sep s then [] :: split_str sep (pred (length sep)) s'
          else cons_head c (split_str sep 0 s')
      end
  end.

(** ['-->'] *)
Definition arrow : pystr := [45; 45; 62]%N.

(** The inner [while] loop (lines 236-239): the stripped non-blank text
    lines up to the next line with ['-->'] or a digit line, and the lines
    left after them. *)
Fixpoint collect_text (ls : list pystr) : list pystr * list pystr :=
  match ls with
  | [] => ([], [])
  | l :: rest =>
      if contains arrow l || py_isdigit (strip l) then ([], ls)
      else let '(text_lines, rest') := collect_text rest in
           ((if bool_decide (strip l = []) then [] else [strip l]) ++ text_lines, rest')
  end.

(** The outer [while] loop (lines 225-256), the remaining lines standing
    for the index [i]. Each test of the loop condition costs one unit of
    fuel. *)
Fixpoint parse_blocks (fuel : nat) (ls : list pystr)
    (raw_subtitles : list (Q * Q * pystr)) : outcome (list (Q * Q * pystr)) :=
  match fuel with
  | O => Diverge
  | S fuel' =>
      match ls with
      | [] => Return raw_subtitles
      | l :: rest =>
          let line := strip l in
          if py_isdigit line then parse_blocks fuel' rest raw_subtitles
          else if contains arrow line then
            let time_line := sub_time_dot 0 line in
            let times := split_str [32; 45; 45; 62; 32]%N 0 time_line in
            outcome_bind (outcome_bind (list_get times 0) parse_time) (fun start_time =>
            outcome_bind (outcome_bind (list_get times 1) parse_time) (fun end_time =>
            let '(text_lines, rest') := collect_text rest in
            parse_blocks fuel' rest'
              (if bool_decide (text_lines = []) then raw_subtitles
               else raw_subtitles ++ [(start_time, end_time, join [32]%N text_lines)])))
          else parse_blocks fuel' rest raw_subtitles
      end
  end.

(** Lines 180-181: the non-blank lines not starting with [WEBVTT]. *)
Definition vtt_lines (content : pystr) : list pystr :=
  filter (fun l => bool_decide (strip l <> []) && negb (is_prefix (ascii_pystr "WEBVTT") l))
    (split_on 10 content).

(** [raw_subtitles] of [vtt_to_srt] for the file contents. *)
Definition vtt_raw_subtitles (content : pystr) : outcome (list (Q * Q * pystr)) :=
  let lines := vtt_lines content in
  parse_blocks (S (length lines)) lines [].

End VttParse.

(** * Drawing the covers *)

(** gen_cover.py lines 150-167: the lines are drawn at [(x, y)] with the
    fonts, spacing and gap left by the shrink loop. A drawn line is
    [(x, y, font size, line)]. *)
Section CoverDraw.
Variable bbox_w : Z -> pystr -> Z.
Variable bbox_h : Z -> pystr -> Z.

(** One drawing loop: the drawn lines and the final [y]. *)
Fixpoint draw_lines (font sp : Z) (lines : list pystr) (y : Z)
    : list (Z * Z * Z * pystr) * Z :=
  match lines with
  | [] => ([], y)
  | line :: rest =>
      let x := ((width_px - bbox_w font line) / 2)%Z in
      let '(ds, y') := draw_lines font sp rest (y + bbox_h font line + sp)%Z in
      ((x, y, font, line) :: ds, y')
  end.

Definition draw_cover (st : shrink_state) (a : attempt) : list (Z * Z * Z * pystr) :=
  let sp := spacing st in
  let y := ((height_px - total_h a) / 2)%Z in
  let '(title_draws, y) := draw_lines (title_font_size a) sp (wrapped_title a) y in
  let y := match wrapped_title a, wrapped_body a with
           | _ :: _, _ :: _ => (y + (title_body_gap st - sp))%Z
           | _, _ => y
           end in
  let '(body_draws, _) := draw_lines (body_font_size a) sp (wrapped_body a) y in
  title_draws ++ body_draws.

End CoverDraw.

(** douyin.py, [cmd_cover] (lines 27-71): every line of the text in one
    font, centred, 20 pixels apart. [bottom l] is [bbox[3]] and [right l]
    is [bbox[2]] of [draw.textbbox((0, 0), l, font=font)]. A drawn line is
    [(x, y, line)]. *)
Section CmdCover.
Variable bottom : pystr -> Z.
Variable right : pystr -> Z.

Fixpoint cmd_cover_draw (lines : list pystr) (line_heights : list Z) (y : Z)
    : list (Z * Z * pystr) :=
  match lines, line_heights with
  | line :: ls, h :: hs => (((1080 - right line) / 2)%Z, y, line) :: cmd_cover_draw ls hs (y + h + 20)%Z
  | _, _ => []
  end.

(** The total height and the drawn lines. *)
Definition cmd_cover_layout (text : pystr) : Z * list (Z * Z * pystr) :=
  let text := replace_escaped_newline text in
  let lines := split_on 10 text in
  let line_heights := map bottom lines in
  let total_h := (foldr Z.add 0 line_heights + (Z.of_nat (length lines) - 1) * 20)%Z in
  let y := ((1920 - total_h) / 2)%Z in
  (total_h, cmd_cover_draw lines line_heights y).

End CmdCover.

(** No two adjacent characters [x], [y] of [s] satisfy [P x y]. *)
Definition no_adjacent (P : pychar -> pychar -> Prop) (s : pystr) : Prop :=
  forall a b x y, s = a ++ x :: y :: b -> ~ P x y.

(** A parser for plain decimal literals (digits with at most one dot),
    used to instantiate Python's [float()] on concrete time fields. *)
Fixpoint decimal_digits (s : pystr) (acc : Q) (scale : option Q) : option Q :=
  match s with
  | [] => Some acc
  | c :: s' =>
      if (c =? 46)%N then
        match scale with None => decimal_digits s' acc (Some (1 # 10)) | Some _ => None end
      else if (48 <=? c)%N && (c <=? 57)%N then
        let d := inject_Z (Z.of_N c - 48) in
        match scale with
        | None => decimal_digits s' (acc * 10 + d) None
        | Some k => decimal_digits s' (acc + k * d) (Some (k / 10))
        end
      else None
  end.

Definition decimal_float (s : pystr) : option Q :=
  match s with [] => None | _ => decimal_digits s 0 None end.


(** ** Predicates on the parsed tweets, the VTT parser and the cover
    drawing *)

(** A content line kept by [parse_tweets]: non-empty, without newline and
    without a skip keyword. *)
Definition tweet_line_ok (l : pystr) : Prop :=
  l <> [] /\ Forall (fun c => c <> 10%N) l /\
  existsb (fun kw => contains kw l) skip_keywords = false.

(** A tweet returned by [parse_tweets]. *)
Definition tweet_ok (t : tweet) : Prop :=
  content t <> [] /\ contains [64%N] (author t) = true /\ Forall tweet_line_ok (content t).

(** The invariant of the [parse_tweets] loop: the tweets kept so far are
    well formed, and the current tweet has content only once it has an
    author line containing [@]. *)
Definition parse_inv (st : list tweet * tweet) : Prop :=
  Forall tweet_ok st.1 /\
  (author st.2 = [] -> content st.2 = []) /\
  (author st.2 <> [] -> contains [64%N] (author st.2) = true) /\
  Forall tweet_line_ok (content st.2).

(** All the content lines of a loop state, in order. *)
Definition flat_content (st : list tweet * tweet) : list pystr :=
  concat (map content st.1) ++ content st.2.

(** A line [第{i}个，{content}] of the feed script, with [lo <= i < hi]. *)
Definition script_line (lo hi : nat) (m : pystr) : Prop :=
  exists i c, m = [31532%N] ++ ascii_pystr (dec_digits (N.of_nat i)) ++ [20010; 65292]%N ++ c /\
              (lo <= i < hi)%nat /\ c <> [] /\ Forall (fun c => c <> 10%N) m.

(** An outcome that is not [Diverge], and satisfies [P] when it returns. *)
Definition outcome_ok {A} (P : A -> Prop) (o : outcome A) : Prop :=
  match o with Return a => P a | Raise _ => True | Diverge => False end.

(** Every parsed VTT cue has a non-empty text. *)
Definition raw_texts_ok (raw : list (Q * Q * pystr)) : Prop :=
  Forall (fun r => r.2 <> []) raw.

Section DrawHeights.
Variable bbox_w : Z -> pystr -> Z.
Variable bbox_h : Z -> pystr -> Z.

(** The [y] reached by a drawing loop of [gen_cover] started at [y]. *)
Definition hsum (f sp : Z) (lines : list pystr) (y : Z) : Z :=
  fold_left (fun acc line => (acc + bbox_h f line + sp)%Z) lines y.

(** A drawn line [(x, y, font, line)] of one drawing loop, between the
    heights [lo] and [hi]. *)
Definition drawn_ok (f sp : Z) (lines : list pystr) (lo hi : Z) (d : Z * Z * Z * pystr) : Prop :=
  let '(x, y, f', line) := d in
  f' = f /\ In line lines /\ x = ((width_px - bbox_w f line) / 2)%Z /\
  (lo <= y)%Z /\ (y + bbox_h f line + sp <= hi)%Z.

(** The extra gap between title and body, when both are drawn. *)
Definition gap_term (st : shrink_state) (a : attempt) : Z :=
  match wrapped_title a, wrapped_body a with
  | _ :: _, _ :: _ => (title_body_gap st - spacing st)%Z
  | _, _ => 0%Z
  end.

(** The height covered by the drawing loops with the spacing and gap of
    [st]. *)
Definition drawn_height (st : shrink_state) (a : attempt) : Z :=
  (hsum (body_font_size a) (spacing st) (wrapped_body a)
     (hsum (title_font_size a) (spacing st) (wrapped_title a) 0 + gap_term st a)
   - spacing st)%Z.

End DrawHeights.

(** The summed line heights of one loop. *)
Definition hbase (bbox_h : Z -> pystr -> Z) (f : Z) (lines : list pystr) : Z :=
  hsum bbox_h f 0 lines 0.

(** * Proofs *)

(** ** Time formatting *)

Example ft_zero : Whisper.format_time 0 = "00:00:00,000"%string.
Proof. reflexivity. Qed.
Example ft_3661 : Whisper.format_time (7323 # 2) = "01:01:01,500"%string.
Proof. reflexivity. Qed.
Example ft_big : Vtt.format_time 360000 = "100:00:00,000"%string.
Proof. reflexivity. Qed.

(** ** Ranges of the time fields *)

Lemma py_int_nonneg (x : Q) : 0 <= x -> py_int x = Qfloor x.
Proof.
  intros H. unfold py_int.
  destruct (Qle_bool 0 x) eqn:E; [reflexivity|].
  apply Qle_bool_iff in H. congruence.
Qed.

Lemma Qfloor_range (x : Q) (k : Z) :
  0 <= x -> x < inject_Z k -> (0 <= Qfloor x < k)%Z.
Proof.
  intros H0 Hk. split.
  - change 0%Z with (Qfloor 0). apply Qfloor_resp_le. exact H0.
  - pose proof (Qfloor_le x) as Hf.
    assert (Hlt : inject_Z (Qfloor x) < inject_Z k) by lra.
    rewrite <- Zlt_Qlt in Hlt. exact Hlt.
Qed.

Lemma py_mod_range (x y : Q) : 0 < y -> 0 <= py_mod x y /\ py_mod x y < y.
Proof.
  intros Hy. unfold py_mod, py_floordiv.
  pose proof (Qfloor_le (x / y)) as Hle.
  pose proof (Qlt_floor (x / y)) as Hlt.
  rewrite inject_Z_plus in Hlt.
  set (f := inject_Z (Qfloor (x / y))) in *.
  assert (E : x == y * (x / y)) by (field; lra).
  change (inject_Z 1) with 1 in Hlt.
  split; nra.
Qed.

Lemma py_int_floordiv (x y : Q) :
  0 <= x -> 0 < y -> py_int (py_floordiv x y) = Qfloor (x / y).
Proof.
  intros Hx Hy. unfold py_floordiv.
  rewrite py_int_nonneg, Qfloor_Z; [reflexivity|].
  change 0 with (inject_Z 0). rewrite <- Zle_Qle.
  change 0%Z with (Qfloor 0). apply Qfloor_resp_le.
  apply Qle_shift_div_l; lra.
Qed.

Lemma fmt_0d_nonneg (w : nat) (n : Z) :
  (0 <= n)%Z -> fmt_0d w n = zpad w (dec_digits (Z.to_N n)).
Proof.
  intros H. unfold fmt_0d. destruct (Z.ltb_spec n 0); [lia | reflexivity].
Qed.

Lemma Vtt_format_time_fields (seconds : Q) :
  0 <= seconds ->
  exists h m s ms,
    (0 <= h)%Z /\ (0 <= m < 60)%Z /\ (0 <= s < 60)%Z /\ (0 <= ms < 1000)%Z /\
    Vtt.format_time seconds = srt_time h m s ms.
Proof.
  intros Hx.
  destruct (py_mod_range seconds 3600) as [Ha1 Ha2]; [lra|].
  destruct (py_mod_range seconds 60) as [Hb1 Hb2]; [lra|].
  destruct (py_mod_range seconds 1) as [Hc1 Hc2]; [lra|].
  set (a := py_mod seconds 3600) in *.
  set (b := py_mod seconds 60) in *.
  set (c := py_mod seconds 1) in *.
  assert (Hh : (0 <= Qfloor (seconds / 3600))%Z).
  { change 0%Z with (Qfloor 0). apply Qfloor_resp_le.
    apply Qle_shift_div_l; lra. }
  assert (Hm : (0 <= Qfloor (a / 60) < 60)%Z).
  { apply Qfloor_range.
    - apply Qle_shift_div_l; lra.
    - apply Qlt_shift_div_r; [lra|]. change (inject_Z 60) with 60. lra. }
  assert (Hs : (0 <= Qfloor b < 60)%Z).
  { apply Qfloor_range; [lra|]. change (inject_Z 60) with 60. lra. }
  assert (Hms : (0 <= Qfloor (c * 1000) < 1000)%Z).
  { apply Qfloor_range; [nra|]. change (inject_Z 1000) with 1000. nra. }
  exists (Qfloor (seconds / 3600)), (Qfloor (a / 60)), (Qfloor b),
    (Qfloor (c * 1000)).
  repeat split; try lia.
  unfold Vtt.format_time; fold a b c.
  rewrite (py_int_floordiv seconds 3600), (py_int_floordiv a 60) by lra.
  rewrite (py_int_nonneg b), (py_int_nonneg (c * 1000)) by nra.
  rewrite !fmt_0d_nonneg by lia.
  reflexivity.
Qed.

(** C2: the [format_time] routines of the word-timestamp mode, of the
    fallback mode and of the VTT conversion return the same string for
    every non-negative number of seconds; that string is the zero-padded
    [HH:MM:SS,mmm] rendering of its hours, minutes (< 60), seconds (< 60)
    and milliseconds (< 1000); [format_time 0.0 = "00:00:00,000"] and
    [format_time 3661.5 = "01:01:01,500"]. *)
Theorem format_time_shared (seconds : Q) (Hnn : 0 <= seconds) :
  Whisper.format_time seconds = Vtt.format_time seconds /\
  Fallback.format_time seconds = Vtt.format_time seconds /\
  (exists h m s ms,
     (0 <= h)%Z /\ (0 <= m < 60)%Z /\ (0 <= s < 60)%Z /\ (0 <= ms < 1000)%Z /\
     Vtt.format_time seconds = srt_time h m s ms) /\
  Vtt.format_time 0 = "00:00:00,000"%string /\
  Vtt.format_time (7323 # 2) = "01:01:01,500"%string.
Proof.
  split; [reflexivity|].
  split; [reflexivity|].
  split; [exact (Vtt_format_time_fields seconds Hnn)|].
  split; reflexivity.
Qed.

Lemma format_time_shared_witness :
  0 <= 7323 # 2 /\
  Whisper.format_time (7323 # 2) = Vtt.format_time (7323 # 2) /\
  Fallback.format_time (7323 # 2) = Vtt.format_time (7323 # 2) /\
  (exists h m s ms,
     (0 <= h)%Z /\ (0 <= m < 60)%Z /\ (0 <= s < 60)%Z /\ (0 <= ms < 1000)%Z /\
     Vtt.format_time (7323 # 2) = srt_time h m s ms) /\
  Vtt.format_time 0 = "00:00:00,000"%string /\
  Vtt.format_time (7323 # 2) = "01:01:01,500"%string.
Proof.
  assert (H : 0 <= 7323 # 2) by (vm_compute; discriminate).
  split; [exact H|]. exact (format_time_shared (7323 # 2) H).
Defined.

(** ** Wrapping *)

Section WrapProofs.
Variable width : pystr -> Z.
Variable max_width : Z.


Lemma wrap_fold_inv (text : pystr) (lines : list pystr) (cur : pystr) :
  Forall (fun l => l <> []) lines ->
  Forall (fits_or_single width max_width) lines ->
  (cur = [] \/ fits_or_single width max_width cur) ->
  let '(lines', cur') := fold_left (wrap_step width max_width) text (lines, cur) in
  concat lines' ++ cur' = concat lines ++ cur ++ text /\
  Forall (fun l => l <> []) lines' /\
  Forall (fits_or_single width max_width) lines' /\
  (cur' = [] \/ fits_or_single width max_width cur').
Proof.
  revert lines cur.
  induction text as [|c text IH]; intros lines cur Hne Hfit Hcur; cbn [fold_left].
  - rewrite app_nil_r. auto.
  - destruct (Z.leb_spec (width (cur ++ [c])) max_width) as [Hw|Hw].
    + assert (E : wrap_step width max_width (lines, cur) c = (lines, cur ++ [c])).
      { unfold wrap_step. apply Z.leb_le in Hw. rewrite Hw. reflexivity. }
      rewrite E.
      specialize (IH lines (cur ++ [c]) Hne Hfit (or_intror (or_introl Hw))).
      destruct (fold_left _ _ _) as [lines' cur'].
      destruct IH as (IH1 & IH2 & IH3 & IH4). rewrite <- !app_assoc in IH1.
      auto.
    + assert (E : wrap_step width max_width (lines, cur) c =
                  ((match cur with [] => lines | _ => lines ++ [cur] end), [c])).
      { unfold wrap_step. apply Z.leb_gt in Hw. rewrite Hw. reflexivity. }
      rewrite E.
      assert (Hc : [c] = [] \/ fits_or_single width max_width [c]) by (right; right; reflexivity).
      destruct cur as [|c0 cur0].
      * specialize (IH lines [c] Hne Hfit Hc).
        destruct (fold_left _ _ _) as [lines' cur']. exact IH.
      * assert (Hcur' : fits_or_single width max_width (c0 :: cur0)) by (destruct Hcur; [discriminate|assumption]).
        specialize (IH (lines ++ [c0 :: cur0]) [c]).
        destruct (fold_left _ _ _) as [lines' cur'].
        destruct IH as (IH1 & IH2 & IH3 & IH4).
        -- apply Forall_app; split; [exact Hne|]. constructor; [discriminate|constructor].
        -- apply Forall_app; split; [exact Hfit|]. constructor; [exact Hcur'|constructor].
        -- exact Hc.
        -- rewrite concat_app in IH1. simpl in IH1. rewrite app_nil_r in IH1.
           rewrite <- !app_assoc in IH1. simpl in IH1. auto.
Qed.

Lemma wrap_text_inv (text : pystr) :
  concat (wrap_text width max_width text) = text /\
  Forall (fun l => l <> []) (wrap_text width max_width text) /\
  Forall (fits_or_single width max_width) (wrap_text width max_width text).
Proof.
  unfold wrap_text.
  pose proof (wrap_fold_inv text [] [] ltac:(constructor) ltac:(constructor) (or_introl eq_refl)) as H.
  destruct (fold_left _ _ _) as [lines cur].
  destruct H as (H1 & H2 & H3 & H4). simpl in H1.
  destruct cur as [|c cur].
  - rewrite app_nil_r in H1. auto.
  - destruct H4 as [H4|H4]; [discriminate|].
    rewrite concat_app. simpl. rewrite app_nil_r. split; [exact H1|].
    split; apply Forall_app; split; auto; constructor; auto; discriminate.
Qed.

End WrapProofs.

(** C10: concatenating the lines of [wrap_text] in order gives back the
    input text exactly, and no line is empty. *)
Theorem wrap_text_concat_nonempty (width : pystr -> Z) (max_width : Z) (text : pystr) :
  concat (wrap_text width max_width text) = text /\
  Forall (fun l => l <> []) (wrap_text width max_width text).
Proof.
  destruct (wrap_text_inv width max_width text) as (H1 & H2 & _). auto.
Qed.

(** C5 (corrected): every line returned by [wrap_text] has measured
    width at most [max_width], or else consists of a single character
    (which [wrap_text] places on a line of its own even when it is wider
    than [max_width]). *)
Theorem wrap_text_width_or_single (width : pystr -> Z) (max_width : Z) (text : pystr) :
  Forall (fun l => (width l <= max_width)%Z \/ length l = 1%nat)
    (wrap_text width max_width text).
Proof.
  destruct (wrap_text_inv width max_width text) as (_ & _ & H). exact H.
Qed.

(** C5 counterexample: with the monotone measure of 100 pixels per
    character and [max_width = 50], wrapping the one-character text ["A"]
    yields the line ["A"] of width 100 > 50. *)
Lemma wrap_text_wide_char_cex :
  (forall s t : pystr, (100 * Z.of_nat (length s) <= 100 * Z.of_nat (length (s ++ t)))%Z) /\
  wrap_text (fun s => 100 * Z.of_nat (length s))%Z 50 [65%N] = [[65%N]] /\
  ~ Forall (fun l => (100 * Z.of_nat (length l) <= 50)%Z)
      (wrap_text (fun s => 100 * Z.of_nat (length s))%Z 50 [65%N]).
Proof.
  split; [|split].
  - intros s t. rewrite length_app. lia.
  - reflexivity.
  - vm_compute. intros H. inversion H as [|x l Hx _]. apply Hx. reflexivity.
Qed.

(** ** The font-shrink loop *)

Lemma shrink_loop_fuel (bbox_w bbox_h : Z -> pystr -> Z) (title : pystr)
    (body_lines : list pystr) (k : nat) :
  shrink_loop bbox_w bbox_h title body_lines (7 + k) init_state None =
  shrink_loop bbox_w bbox_h title body_lines 7 init_state None.
Proof.
  cbn -[measure_attempt].
  repeat (destruct (_ <=? max_content_height)%Z; [reflexivity|]).
  reflexivity.
Qed.

Lemma shrink_loop_result (bbox_w bbox_h : Z -> pystr -> Z) (title : pystr)
    (body_lines : list pystr) :
  exists st a,
    shrink_loop bbox_w bbox_h title body_lines 7 init_state None = Some (st, Some a) /\
    In (title_font_size a, body_font_size a)
      [(90, 60); (80, 53); (70, 46); (60, 40); (50, 33); (40, 26)]%Z /\
    ((total_h a <= max_content_height)%Z \/
     (title_font_size a = 40 /\ body_font_size a = 26)%Z).
Proof.
  cbn -[measure_attempt].
  repeat match goal with
         | |- context [ (?x <=? ?y)%Z ] => destruct (Z.leb_spec x y)
         end;
  try (exfalso; lia);
  (eexists _, _; split; [reflexivity|]);
  (split; [cbn; tauto|]);
  solve [ left; assumption | right; split; reflexivity ].
Qed.

(** C6: for every text and every font measure, the shrink loop of
    [gen_cover] stops within 7 tests of its condition (more fuel changes
    nothing), i.e. at most 6 passes, with title sizes 90, 80, ..., 40;
    the title and body font sizes of the pass used for drawing are
    strictly positive; and [gen_cover] returns a layout (no exception):
    either the text fits, or the last pass (title 40, body 26) is used. *)
Theorem gen_cover_shrink_terminates (bbox_w bbox_h : Z -> pystr -> Z) (text : pystr) :
  exists st a,
    gen_cover_layout bbox_w bbox_h text = Return (st, a) /\
    (forall k : nat,
       shrink_loop bbox_w bbox_h (fst (parse_cover_text text))
         (snd (parse_cover_text text)) (7 + k) init_state None = Some (st, Some a)) /\
    In (title_font_size a, body_font_size a)
      [(90, 60); (80, 53); (70, 46); (60, 40); (50, 33); (40, 26)]%Z /\
    (0 < title_font_size a)%Z /\ (0 < body_font_size a)%Z /\
    ((total_h a <= max_content_height)%Z \/
     (title_font_size a = 40 /\ body_font_size a = 26)%Z).
Proof.
  unfold gen_cover_layout.
  destruct (parse_cover_text text) as [title body_lines]. simpl fst; simpl snd.
  destruct (shrink_loop_result bbox_w bbox_h title body_lines) as (st & a & E & Hin & Hfit).
  exists st, a. rewrite E.
  split; [reflexivity|].
  split; [intros k; rewrite shrink_loop_fuel; exact E|].
  split; [exact Hin|].
  split; [|split; [|exact Hfit]];
    simpl in Hin; repeat destruct Hin as [Hin|Hin];
    solve [ injection Hin; intros; lia | contradiction ].
Qed.

(** ** Cue lists built with [imap] *)

Lemma Q_of_nat_S (j : nat) : Q_of_nat (S j) == Q_of_nat j + 1.
Proof.
  unfold Q_of_nat. rewrite Nat2Z.inj_succ, <- Z.add_1_r, inject_Z_plus. reflexivity.
Qed.

Lemma Q_of_nat_le (i j : nat) : (i <= j)%nat -> Q_of_nat i <= Q_of_nat j.
Proof. intros H. unfold Q_of_nat. rewrite <- Zle_Qle. lia. Qed.

Lemma Q_of_nat_nonneg (i : nat) : 0 <= Q_of_nat i.
Proof. apply (Q_of_nat_le 0). lia. Qed.

Lemma Q_of_nat_pos (i : nat) : (0 < i)%nat -> 0 < Q_of_nat i.
Proof. intros H. unfold Q_of_nat. change 0 with (inject_Z 0). rewrite <- Zlt_Qlt. lia. Qed.

Lemma imap_index (F : nat -> pystr -> cue) (b : nat) (l : list pystr) :
  (forall j x, cue_index (F j x) = (b + j)%nat) ->
  map cue_index (imap F l) = seq b (length l).
Proof.
  revert F b. induction l as [|x l IH]; intros F b HF; [reflexivity|].
  rewrite imap_cons. simpl. rewrite HF, Nat.add_0_r. f_equal.
  apply IH. intros j y. simpl. rewrite HF. lia.
Qed.

Lemma imap_chained (F : nat -> pystr -> cue) (l : list pystr) :
  (forall j x y, cue_end (F j x) <= cue_start (F (S j) y)) ->
  cues_chained (imap F l).
Proof.
  revert F. induction l as [|x l IH]; intros F HF; [exact I|].
  rewrite imap_cons. destruct l as [|y l]; [exact I|].
  specialize (IH (F ∘ S) (fun j => HF (S j))).
  rewrite imap_cons in IH |- *. split; [apply HF|exact IH].
Qed.

Lemma imap_Forall (P : cue -> Prop) (F : nat -> pystr -> cue) (l : list pystr) :
  (forall j x, (j < length l)%nat -> P (F j x)) ->
  Forall P (imap F l).
Proof.
  revert F. induction l as [|x l IH]; intros F HF; [constructor|].
  rewrite imap_cons. constructor.
  - apply HF. simpl. lia.
  - apply IH. intros j y Hj. apply HF. simpl. lia.
Qed.

Lemma cues_chained_app (l1 l2 : list cue) :
  cues_chained l1 -> cues_chained l2 ->
  Forall (fun c1 => Forall (fun c2 => cue_end c1 <= cue_start c2) l2) l1 ->
  cues_chained (l1 ++ l2).
Proof.
  induction l1 as [|c1 l1 IH]; intros H1 H2 H12; [exact H2|].
  inversion H12 as [|? ? Hc1 Hrest]; subst.
  destruct l1 as [|c1' l1].
  - simpl. destruct l2 as [|c2 l2]; [exact I|].
    split; [inversion Hc1; assumption|exact H2].
  - destruct H1 as [Hc H1]. simpl. split; [exact Hc|].
    apply IH; assumption.
Qed.

(** ** The fallback mode [gen_subtitles] *)

Lemma gen_subtitles_indices (text : pystr) (duration : Q) :
  indices_contiguous (gen_subtitles text duration).
Proof.
  unfold indices_contiguous, gen_subtitles. rewrite length_imap.
  apply imap_index. reflexivity.
Qed.

Lemma gen_subtitles_chained (text : pystr) (duration : Q) :
  cues_chained (gen_subtitles text duration).
Proof.
  unfold gen_subtitles. apply imap_chained. intros j x y. simpl.
  lra.
Qed.

Lemma gen_subtitles_well_timed (text : pystr) (duration : Q) :
  Q_of_nat (length (split_sentences text)) * (1 # 10) < duration ->
  cues_well_timed (gen_subtitles text duration).
Proof.
  intros Hd. unfold cues_well_timed, gen_subtitles.
  set (n := length (split_sentences text)) in *.
  assert (Hn : 0 < Q_of_nat n).
  { apply Q_of_nat_pos. subst n. unfold split_sentences.
    destruct (map strip _); simpl; lia. }
  assert (Ht : 1 # 10 < duration / Q_of_nat n).
  { apply Qlt_shift_div_l; [exact Hn|]. lra. }
  apply imap_Forall. intros j x _. simpl. rewrite Q_of_nat_S.
  set (t := duration / Q_of_nat n) in *. lra.
Qed.

(** ** The re-splitting loop of [vtt_to_srt] *)

Lemma split_text_nonempty (text : pystr) (max_chars : nat) (parts : list pystr) :
  split_text text max_chars = Return parts -> parts <> [].
Proof.
  unfold split_text.
  destruct (length text <=? max_chars)%nat.
  - intros [= <-]. discriminate.
  - destruct (force_split_all _ _) as [[|p ps]|]; intros H; inversion H; discriminate.
Qed.

Lemma part_cues_indices (b : nat) (start end_ : Q) (parts : list pystr) :
  map cue_index (part_cues b start end_ parts) = seq b (length parts).
Proof. apply imap_index. reflexivity. Qed.

Lemma part_cues_chained (b : nat) (start end_ : Q) (parts : list pystr) :
  cues_chained (part_cues b start end_ parts).
Proof. apply imap_chained. intros j x y. simpl. lra. Qed.

Lemma part_cues_timed (b : nat) (start end_ : Q) (parts : list pystr) :
  parts <> [] ->
  Q_of_nat (length parts) * (1 # 20) < end_ - start ->
  Forall (fun c => cue_start c < cue_end c /\ start <= cue_start c /\ cue_end c <= end_)
    (part_cues b start end_ parts).
Proof.
  intros Hne Hlong.
  assert (Hn : 0 < Q_of_nat (length parts)).
  { apply Q_of_nat_pos. destruct parts; [contradiction|simpl; lia]. }
  set (n := Q_of_nat (length parts)) in *.
  assert (Ht : 1 # 20 < (end_ - start) / n).
  { apply Qlt_shift_div_l; [exact Hn|]. lra. }
  assert (Hnt : (end_ - start) / n * n == end_ - start) by (field; lra).
  apply imap_Forall. intros j x Hj. simpl. fold n.
  rewrite Q_of_nat_S.
  pose proof (Q_of_nat_nonneg j) as Hj0.
  assert (Hj1 : Q_of_nat j + 1 <= n).
  { rewrite <- Q_of_nat_S. apply Q_of_nat_le. lia. }
  set (t := (end_ - start) / n) in *.
  repeat split; nra.
Qed.

Lemma resplit_inv (max_chars : nat) (raw : list (Q * Q * pystr)) :
  forall (b : nat) (cs : list cue),
  resplit max_chars b raw = Return cs ->
  map cue_index cs = seq b (length cs) /\
  (raw_long_enough max_chars raw -> raw_chained raw ->
   cues_well_timed cs /\ cues_chained cs /\
   match raw with
   | (start, _, _) :: _ => Forall (fun c => start <= cue_start c) cs
   | [] => True
   end).
Proof.
  induction raw as [|[[start end_] text] raw IH]; intros b cs Hr.
  - simpl in Hr. injection Hr as <-. split; [reflexivity|]. intros. split; [constructor|]. split; exact I.
  - simpl in Hr. unfold outcome_bind in Hr.
    destruct (split_text text max_chars) as [parts| |] eqn:Hs; try discriminate.
    destruct (resplit max_chars (b + length parts) raw) as [cs'| |] eqn:Hr'; try discriminate.
    injection Hr as <-.
    destruct (IH _ _ Hr') as [Hidx Hprops].
    split.
    + rewrite map_app, part_cues_indices, Hidx, length_app.
      unfold part_cues. rewrite length_imap, seq_app. reflexivity.
    + intros Hlong Hch.
      inversion Hlong as [|? ? Hl0 Hlong']; subst.
      unfold split_count in Hl0. rewrite Hs in Hl0.
      pose proof (split_text_nonempty _ _ _ Hs) as Hne.
      pose proof (part_cues_timed b start end_ parts Hne Hl0) as Hpc.
      assert (Hch' : raw_chained raw) by (destruct raw as [|[[? ?] ?] ?]; [exact I|apply Hch]).
      destruct (Hprops Hlong' Hch') as (Htimed & Hchained & Hfirst).
      split; [|split].
      * apply Forall_app; split; [|exact Htimed].
        eapply Forall_impl; [exact Hpc|]. intros c [H _]. exact H.
      * apply cues_chained_app; [apply part_cues_chained|exact Hchained|].
        eapply Forall_impl; [exact Hpc|]. intros c1 (_ & _ & Hc1).
        destruct raw as [|[[start2 end2] text2] raw]; [simpl in Hr'; injection Hr' as <-; constructor|].
        simpl in Hch. destruct Hch as [Hle _].
        eapply Forall_impl; [exact Hfirst|]. intros c2 Hc2. cbv beta in Hc2. lra.
      * apply Forall_app; split.
        -- eapply Forall_impl; [exact Hpc|]. intros c (_ & H & _). exact H.
        -- destruct raw as [|[[start2 end2] text2] raw]; [simpl in Hr'; injection Hr' as <-; constructor|].
           simpl in Hch. destruct Hch as [Hle _].
           eapply Forall_impl; [exact Hfirst|]. intros c Hc. cbv beta in Hc.
           assert (start <= end_) by (pose proof (Q_of_nat_nonneg (length parts)); lra).
           lra.
Qed.

(** ** The word-timestamp mode [gen_subtitles_whisper] *)

Lemma wcues_chained_snoc (l : list wcue) (c : wcue) :
  wcues_chained l ->
  match last l with Some b => wcue_before b c | None => True end ->
  wcues_chained (l ++ [c]).
Proof.
  induction l as [|x l IH]; intros Hl Hb; [exact I|].
  destruct l as [|y l].
  - split; [exact Hb|exact I].
  - destruct Hl as [Hxy Hl]. split; [exact Hxy|].
    apply IH; [exact Hl|]. rewrite last_cons_cons in Hb. exact Hb.
Qed.

Lemma whisper_index_step (max_chars : nat) (st : wstate) (w : pystr * Q * Q) :
  whisper_index_inv st -> whisper_index_inv (whisper_step max_chars st w).
Proof.
  destruct w as [[wtext wstart] wend]. intros [Hi Hb]. unfold whisper_step.
  destruct wtext as [|ch wt]; [split; assumption|]. cbv zeta.
  match goal with |- context [if ?b then _ else _] => destruct b end;
    [|split; assumption].
  unfold whisper_index_inv, wcues_indices in *. cbn [srt_blocks block_num].
  rewrite map_app, length_app, Hi. cbn [map wcue_index length].
  rewrite Hb, Nat.add_1_r, seq_S. split; reflexivity.
Qed.

Lemma whisper_index_fold (max_chars : nat) (l : list (pystr * Q * Q)) (st : wstate) :
  whisper_index_inv st -> whisper_index_inv (fold_left (whisper_step max_chars) l st).
Proof.
  revert st. induction l as [|w l IH]; intros st H; simpl; [exact H|].
  apply IH, whisper_index_step, H.
Qed.

Lemma whisper_cues_indices (max_chars : nat) (words : list (pystr * Q * Q))
    (cues : list wcue) :
  whisper_cues max_chars words = Some cues -> wcues_indices cues.
Proof.
  intros Hc.
  pose proof (whisper_index_fold max_chars words whisper_init (conj eq_refl eq_refl))
    as [Hi Hb].
  unfold whisper_cues in Hc.
  set (st := fold_left (whisper_step max_chars) words whisper_init) in *.
  destruct words as [|w ws]; [discriminate|].
  injection Hc as <-.
  destruct (current_text st); [exact Hi|].
  unfold wcues_indices in *. rewrite map_app, length_app, Hi. cbn [map wcue_index length].
  rewrite Hb, Nat.add_1_r, seq_S. reflexivity.
Qed.

Lemma words_after (t : pystr) (s e : Q) (l : list (pystr * Q * Q)) :
  words_timed ((t, s, e) :: l) -> words_chained ((t, s, e) :: l) ->
  Forall (fun '(_, s', _) => e <= s') l.
Proof.
  revert t s e. induction l as [|[[t2 s2] e2] l IH]; intros t s e Ht Hc; [constructor|].
  destruct Hc as [Hle Hc]. inversion Ht as [|? ? _ Ht']; subst.
  constructor; [exact Hle|].
  inversion Ht' as [|? ? Hse2 _]; subst. cbv beta iota in Hse2.
  eapply Forall_impl; [exact (IH t2 s2 e2 Ht' Hc)|].
  intros [[? s'] ?] H. lra.
Qed.

Lemma whisper_timing_step (max_chars : nat) (st : wstate) (wtext : pystr) (s e : Q) :
  whisper_timing_inv st -> s < e ->
  (forall ce, current_end st = Some ce -> ce <= s) ->
  whisper_timing_inv (whisper_step max_chars st (wtext, s, e)) /\
  (forall ce, current_end (whisper_step max_chars st (wtext, s, e)) = Some ce -> ce <= e).
Proof.
  intros (Ht & Hch & Hnil & Hcur) Hse Hend. unfold whisper_step.
  destruct wtext as [|ch wt].
  { split; [exact (conj Ht (conj Hch (conj Hnil Hcur)))|].
    intros ce Hce. specialize (Hend ce Hce). lra. }
  cbv zeta.
  destruct (current_text st) as [|c0 cur] eqn:Ecur.
  - destruct (Hnil eq_refl) as (Hb & Hs & He).
    rewrite bool_decide_true by reflexivity. rewrite andb_false_r, Hs.
    cbn [srt_blocks current_text current_start current_end].
    split; [|intros ce [= <-]; lra].
    rewrite Hb. split; [constructor|]. split; [exact I|].
    split; [intros Hx; discriminate Hx|].
    intros _. exists s, e. split; [reflexivity|]. split; [reflexivity|].
    split; [exact Hse|exact I].
  - destruct (Hcur ltac:(discriminate)) as (cs & ce & Hs & He & Hlt & Hlast).
    specialize (Hend ce He).
    rewrite bool_decide_false by discriminate. rewrite Hs, He.
    match goal with |- context [if ?b then _ else _] => destruct b end;
      cbn [srt_blocks current_text current_start current_end wcue_end wcue_start].
    + split; [|intros ce' [= <-]; lra].
      split; [|split; [|split]].
      * apply Forall_app; split; [exact Ht|]. constructor; [|constructor].
        exists cs, ce. split; [reflexivity|]. split; [reflexivity|exact Hlt].
      * apply wcues_chained_snoc; [exact Hch|].
        destruct (last (srt_blocks st)) as [b|]; [|exact I].
        destruct Hlast as (e0 & He0 & Hle). exists e0, cs.
        split; [exact He0|]. split; [reflexivity|exact Hle].
      * intros Hx; discriminate Hx.
      * intros _. exists s, e. split; [reflexivity|]. split; [reflexivity|].
        split; [exact Hse|]. cbn [srt_blocks]. rewrite last_snoc. exists ce. split; [reflexivity|exact Hend].
    + split; [|intros ce' [= <-]; lra].
      split; [exact Ht|]. split; [exact Hch|].
      split; [intros Hx; discriminate Hx|].
      intros _. exists cs, e. split; [reflexivity|]. split; [reflexivity|].
      split; [lra|exact Hlast].
Qed.

Lemma whisper_timing_fold (max_chars : nat) (l : list (pystr * Q * Q)) (st : wstate) :
  words_timed l -> words_chained l -> whisper_timing_inv st ->
  (forall ce, current_end st = Some ce -> Forall (fun '(_, s, _) => ce <= s) l) ->
  whisper_timing_inv (fold_left (whisper_step max_chars) l st).
Proof.
  revert st. induction l as [|[[t s] e] l IH]; intros st Ht Hc Hinv Hend; simpl; [exact Hinv|].
  inversion Ht as [|? ? Hse Ht']; subst. cbv beta iota in Hse.
  assert (Hc' : words_chained l)
    by (destruct l as [|[[t2 s2] e2] l]; [exact I|exact (proj2 Hc)]).
  assert (Hafter := words_after t s e l Ht Hc).
  destruct (whisper_timing_step max_chars st t s e Hinv Hse) as [Hinv' Hend'].
  { intros ce Hce. specialize (Hend ce Hce). inversion Hend as [|? ? H0 _]. exact H0. }
  apply IH; [exact Ht'|exact Hc'|exact Hinv'|].
  intros ce Hce. specialize (Hend' ce Hce).
  eapply Forall_impl; [exact Hafter|]. intros [[? s'] ?] H. lra.
Qed.

Lemma whisper_cues_timing (max_chars : nat) (words : list (pystr * Q * Q))
    (cues : list wcue) :
  whisper_cues max_chars words = Some cues ->
  words_timed words -> words_chained words ->
  Forall wcue_timed cues /\ wcues_chained cues.
Proof.
  intros Hc Ht Hch.
  assert (Hinit : whisper_timing_inv whisper_init).
  { split; [constructor|]. split; [exact I|]. split; [intros _; repeat split|].
    intros H. exfalso. apply H. reflexivity. }
  pose proof (whisper_timing_fold max_chars words whisper_init Ht Hch Hinit
                (fun ce H => ltac:(discriminate H))) as (Hb & Hbc & _ & Hcur).
  unfold whisper_cues in Hc.
  set (st := fold_left (whisper_step max_chars) words whisper_init) in *.
  destruct words as [|w ws]; [discriminate|].
  injection Hc as <-.
  destruct (current_text st) as [|ch t] eqn:Et; [auto|].
  destruct (Hcur ltac:(discriminate)) as (cs & ce & Hs & He & Hlt & Hlast).
  split.
  - apply Forall_app; split; [exact Hb|]. constructor; [|constructor].
    exists cs, ce. cbn [wcue_start wcue_end]. auto.
  - apply wcues_chained_snoc; [exact Hbc|].
    destruct (last (srt_blocks st)) as [b|]; [|exact I].
    destruct Hlast as (e0 & He0 & Hle). exists e0, cs. cbn [wcue_start]. auto.
Qed.

Lemma gen_subtitles_timed_long (text : pystr) (duration : Q) :
  cues_well_timed (gen_subtitles text duration) ->
  Q_of_nat (length (split_sentences text)) * (1 # 10) < duration.
Proof.
  intros H. unfold cues_well_timed, gen_subtitles in H. cbv zeta in H.
  assert (Hn : (0 < length (split_sentences text))%nat)
    by (unfold split_sentences; destruct (map strip _); simpl; lia).
  destruct (split_sentences text) as [|s0 ss]; [simpl in Hn; lia|].
  rewrite imap_cons in H. inversion H as [|? ? H0 _]. clear H.
  cbn [cue_start cue_end] in H0.
  cbn [length] in *.
  set (m := Q_of_nat (S (length ss))) in *.
  assert (Hm : 0 < m) by (apply Q_of_nat_pos; lia).
  change (Q_of_nat 0) with 0 in H0. change (Q_of_nat 1) with 1 in H0.
  set (t := duration / m) in *.
  assert (Ht : 1 # 10 < t) by lra.
  assert (E : duration == t * m) by (unfold t; field; intros Hz; lra).
  rewrite E, (Qmult_comm t m). apply (Qmult_lt_l _ _ _ Hm). exact Ht.
Qed.

(** ** Cue sequences (C1) *)

(** C1 (corrected): the cue indices are always exactly 1..N, in
    [gen_subtitles], in the re-splitting of [vtt_to_srt] (whenever it
    returns) and in the word-timestamp mode [gen_subtitles_whisper]. The
    cues of [gen_subtitles] always satisfy [end[i] <= start[i+1]], and they
    satisfy [start < end] exactly when the duration exceeds 0.1 s per
    sentence. The cues of [vtt_to_srt] satisfy [start < end] and
    [end[i] <= start[i+1]] when the parsed cues are ordered without
    overlap and each one lasts more than 0.05 s per output segment. The
    cues of the word-timestamp mode satisfy both when every word starts
    before it ends and ends no later than the next word starts. *)
Theorem subtitle_cues_invariants (text : pystr) (duration : Q) (max_chars : nat)
    (raw : list (Q * Q * pystr)) (cs : list cue)
    (words : list (pystr * Q * Q)) (wcs : list wcue) :
  indices_contiguous (gen_subtitles text duration) /\
  cues_chained (gen_subtitles text duration) /\
  (cues_well_timed (gen_subtitles text duration) <->
   Q_of_nat (length (split_sentences text)) * (1 # 10) < duration) /\
  (vtt_cues max_chars raw = Return cs ->
   indices_contiguous cs /\
   (raw_long_enough max_chars raw -> raw_chained raw ->
    cues_well_timed cs /\ cues_chained cs)) /\
  (whisper_cues max_chars words = Some wcs ->
   wcues_indices wcs /\
   (words_timed words -> words_chained words ->
    Forall wcue_timed wcs /\ wcues_chained wcs)).
Proof.
  split; [apply gen_subtitles_indices|].
  split; [apply gen_subtitles_chained|].
  split; [split; [apply gen_subtitles_timed_long|apply gen_subtitles_well_timed]|].
  split.
  - intros Hv. destruct (resplit_inv max_chars raw 1 cs Hv) as [Hidx Hp].
    split; [exact Hidx|].
    intros Hl Hc. destruct (Hp Hl Hc) as (H1 & H2 & _). auto.
  - intros Hw. split; [exact (whisper_cues_indices max_chars words wcs Hw)|].
    intros Ht Hc. exact (whisper_cues_timing max_chars words wcs Hw Ht Hc).
Qed.

Lemma subtitle_cues_invariants_witness :
  let text := [97; 12290; 98]%N in
  let raw := [(0, 2, [97%N]); (2, 4, repeat 98%N 25)] in
  let words := [([97%N], 0, 1); (repeat 98%N 20, 1, 2)] in
  Q_of_nat (length (split_sentences text)) * (1 # 10) < 3 /\
  cues_well_timed (gen_subtitles text 3) /\
  (exists cs, vtt_cues 20 raw = Return cs /\
    raw_long_enough 20 raw /\ raw_chained raw /\
    indices_contiguous cs /\ cues_well_timed cs /\ cues_chained cs) /\
  (exists wcs, whisper_cues 20 words = Some wcs /\
    words_timed words /\ words_chained words /\
    wcues_indices wcs /\ Forall wcue_timed wcs /\ wcues_chained wcs).
Proof.
  intros text raw words.
  assert (Hd : Q_of_nat (length (split_sentences text)) * (1 # 10) < 3)
    by (vm_compute; reflexivity).
  destruct (subtitle_cues_invariants text 3 20 raw
              (match vtt_cues 20 raw with Return cs => cs | _ => [] end)
              words (match whisper_cues 20 words with Some wcs => wcs | None => [] end))
    as (_ & _ & Hg & Hv & Hw).
  split; [exact Hd|]. split; [exact (proj2 Hg Hd)|]. split.
  - eexists. split; [vm_compute; reflexivity|].
    assert (Hl : raw_long_enough 20 raw).
    { repeat constructor; vm_compute; reflexivity. }
    assert (Hc : raw_chained raw) by (split; [vm_compute; discriminate|exact I]).
    destruct (Hv (eq_refl _)) as [Hi Hp].
    split; [exact Hl|]. split; [exact Hc|]. split; [exact Hi|].
    exact (Hp Hl Hc).
  - eexists. split; [vm_compute; reflexivity|].
    assert (Ht : words_timed words) by (repeat constructor; vm_compute; reflexivity).
    assert (Hc : words_chained words) by (split; [vm_compute; discriminate|exact I]).
    destruct (Hw (eq_refl _)) as [Hi Hp].
    split; [exact Ht|]. split; [exact Hc|]. split; [exact Hi|].
    exact (Hp Ht Hc).
Defined.

(** C1 counterexamples, one for each mode. [gen_subtitles "a" 0.05] gives
    the single cue [1, 0.0 --> -0.05, "a"], whose end precedes its start.
    The re-splitting of [vtt_to_srt] turns the parsed cue [(0, 0.01, "a")]
    into a cue from 0 to -0.04, and the overlapping parsed cues
    [(0, 2, "a")] and [(1, 3, "b")] into a cue ending at 1.95 followed by
    one starting at 1. The word-timestamp mode turns a word starting and
    ending at 1 into a cue from 1 to 1, and the words [("a" * 20, 0, 2)]
    and [("b", 1, 3)] into a cue ending at 2 followed by one starting
    at 1. *)
Lemma subtitle_timing_cex :
  map (fun c => (cue_index c, cue_start c, cue_end c, cue_text c))
    (gen_subtitles [97%N] (1 # 20)) = [(1%nat, 0 # 20, -10 # 200, [97%N])] /\
  ~ cues_well_timed (gen_subtitles [97%N] (1 # 20)) /\
  (exists cs, vtt_cues 20 [(0, 1 # 100, [97%N])] = Return cs /\
     map (fun c => (cue_start c, cue_end c)) cs = [(0 + 0 * (1 # 100), 0 + 1 * (1 # 100) - (5 # 100))] /\
     ~ cues_well_timed cs) /\
  (exists cs, vtt_cues 20 [(0, 2, [97%N]); (1, 3, [98%N])] = Return cs /\
     ~ cues_chained cs) /\
  (exists wcs, whisper_cues 20 [([97%N], 1, 1)] = Some wcs /\
     map (fun c => (wcue_start c, wcue_end c)) wcs = [(Some 1, Some 1)] /\
     ~ Forall wcue_timed wcs) /\
  (exists wcs, whisper_cues 20 [(repeat 97%N 20, 0, 2); ([98%N], 1, 3)] = Some wcs /\
     map (fun c => (wcue_start c, wcue_end c)) wcs = [(Some 0, Some 2); (Some 1, Some 3)] /\
     ~ wcues_chained wcs).
Proof.
  split; [reflexivity|].
  split; [vm_compute; intros H; inversion H as [|c l Hc _]; discriminate Hc|].
  split.
  { eexists. split; [reflexivity|]. split; [reflexivity|].
    vm_compute. intros H. inversion H as [|c l Hc _]. discriminate Hc. }
  split.
  { eexists. split; [reflexivity|].
    vm_compute. intros [H _]. apply H. reflexivity. }
  split.
  { eexists. split; [reflexivity|]. split; [reflexivity|].
    intros H. inversion H as [|c l Hc _]. destruct Hc as (s & e & Hs & He & Hlt).
    injection Hs as <-. injection He as <-. vm_compute in Hlt. discriminate Hlt. }
  { eexists. split; [reflexivity|]. split; [reflexivity|].
    intros [(e & s & He & Hs & Hle) _].
    injection He as <-. injection Hs as <-. vm_compute in Hle. apply Hle. reflexivity. }
Qed.

(** ** Time distribution of a re-split cue (C3) *)

Lemma imap_total_duration (F : nat -> pystr -> cue) (d : Q) (l : list pystr) :
  (forall j x, cue_end (F j x) - cue_start (F j x) == d) ->
  total_duration (imap F l) == Q_of_nat (length l) * d.
Proof.
  revert F. induction l as [|x l IH]; intros F HF.
  - reflexivity.
  - rewrite imap_cons. simpl total_duration. rewrite (HF 0%nat x).
    rewrite (IH (F ∘ S)) by (intros j y; apply HF).
    rewrite (Q_of_nat_S (length l)). ring.
Qed.

(** C3 (corrected): for a parsed cue [(start, end)] whose text
    [split_text] cuts into [n] segments, the re-splitting loop emits [n]
    cues, the [j]-th starting at [start + j * (end - start) / n] (equal
    nominal shares) and ending 0.05 s before the end of its share; so the
    durations of these [n] cues add up to [(end - start) - 0.05 * n],
    not to [end - start]. *)
Theorem vtt_resplit_time_shares (max_chars b : nat) (start end_ : Q) (text : pystr)
    (rest : list (Q * Q * pystr)) (cs : list cue)
    (H : resplit max_chars b ((start, end_, text) :: rest) = Return cs) :
  exists parts cs_rest,
    split_text text max_chars = Return parts /\
    cs = part_cues b start end_ parts ++ cs_rest /\
    (forall (j : nat) (c : cue), part_cues b start end_ parts !! j = Some c ->
       cue_start c == start + Q_of_nat j * ((end_ - start) / Q_of_nat (length parts)) /\
       cue_end c == start + Q_of_nat (S j) * ((end_ - start) / Q_of_nat (length parts))
                    - (5 # 100)) /\
    total_duration (part_cues b start end_ parts) ==
      (end_ - start) - Q_of_nat (length parts) * (5 # 100).
Proof.
  simpl in H. unfold outcome_bind in H.
  destruct (split_text text max_chars) as [parts| |] eqn:Hs; try discriminate.
  destruct (resplit max_chars (b + length parts) rest) as [cs'| |]; try discriminate.
  injection H as <-.
  exists parts, cs'. split; [reflexivity|]. split; [reflexivity|]. split.
  - intros j c Hj. unfold part_cues in Hj.
    rewrite list_lookup_imap in Hj.
    destruct (parts !! j) as [x|]; [|discriminate].
    injection Hj as <-. simpl. split; reflexivity.
  - pose proof (split_text_nonempty _ _ _ Hs) as Hne.
    assert (Hn : 0 < Q_of_nat (length parts)).
    { apply Q_of_nat_pos. destruct parts; [contradiction|simpl; lia]. }
    unfold part_cues.
    rewrite (imap_total_duration _ ((end_ - start) / Q_of_nat (length parts) - (5 # 100))).
    + field. lra.
    + intros j x. simpl. rewrite Q_of_nat_S. ring.
Qed.

Lemma vtt_resplit_time_shares_witness :
  exists cs,
    resplit 20 1 [(0, 3, repeat 97%N 21)] = Return cs /\
    exists parts cs_rest,
      split_text (repeat 97%N 21) 20 = Return parts /\
      cs = part_cues 1 0 3 parts ++ cs_rest /\
      (forall (j : nat) (c : cue), part_cues 1 0 3 parts !! j = Some c ->
         cue_start c == 0 + Q_of_nat j * ((3 - 0) / Q_of_nat (length parts)) /\
         cue_end c == 0 + Q_of_nat (S j) * ((3 - 0) / Q_of_nat (length parts))
                      - (5 # 100)) /\
      total_duration (part_cues 1 0 3 parts) ==
        (3 - 0) - Q_of_nat (length parts) * (5 # 100).
Proof.
  eexists. split; [vm_compute; reflexivity|].
  apply (vtt_resplit_time_shares 20 1 0 3 (repeat 97%N 21) []).
  vm_compute. reflexivity.
Defined.

(** C3 counterexample: a cue from 0 s to 3 s with 21 characters without
    punctuation is cut into 20 + 1 characters; the two output cues span
    0 --> 1.45 and 1.5 --> 2.95, durations summing to 2.9 s, not 3 s. *)
Lemma vtt_resplit_duration_cex :
  vtt_cues 20 [(0, 3, repeat 97%N 21)] =
    Return [{| cue_index := 1; cue_start := 0 # 2; cue_end := 290 # 200;
               cue_text := repeat 97%N 20 |};
            {| cue_index := 2; cue_start := 3 # 2; cue_end := 590 # 200;
               cue_text := [97%N] |}] /\
  total_duration [{| cue_index := 1; cue_start := 0 # 2; cue_end := 290 # 200;
                     cue_text := repeat 97%N 20 |};
                  {| cue_index := 2; cue_start := 3 # 2; cue_end := 590 # 200;
                     cue_text := [97%N] |}] == 29 # 10 /\
  ~ (29 # 10 == 3 - 0).
Proof.
  split; [vm_compute; reflexivity|]. split; [vm_compute; reflexivity|].
  vm_compute. discriminate.
Qed.

(** ** Cue text bounds (C4) *)

Section WhisperProofs.
Variable max_chars : nat.
Variable words : list (pystr * Q * Q).


Lemma whisper_step_inv (st : wstate) (w : pystr * Q * Q) :
  In w words -> whisper_inv max_chars words st -> whisper_inv max_chars words (whisper_step max_chars st w).
Proof.
  destruct w as [[wtext wstart] wend]. intros Hin [Hb Hc].
  unfold whisper_step.
  destruct wtext as [|ch wt]; [split; assumption|].
  set (wtext := ch :: wt) in *.
  assert (Hw : whisper_text_ok max_chars words wtext).
  { split; [discriminate|]. right. exists wstart, wend. exact Hin. }
  destruct (current_text st) as [|c0 cur] eqn:Ecur.
  - rewrite bool_decide_true by reflexivity. rewrite andb_false_r. simpl.
    split; [exact Hb|]. right. exact Hw.
  - rewrite bool_decide_false by discriminate. rewrite andb_true_r.
    destruct (Nat.ltb_spec max_chars (length (c0 :: cur) + length wtext)) as [Hlt|Hge];
      simpl.
    + split; [|right; exact Hw].
      apply Forall_app; split; [exact Hb|]. constructor; [|constructor].
      simpl. destruct Hc; [discriminate|assumption].
    + split; [exact Hb|]. right. split; [discriminate|].
      left. unfold wtext in *. simpl in *. rewrite length_app. simpl in *. lia.
Qed.

Lemma whisper_fold_inv (l : list (pystr * Q * Q)) (st : wstate) :
  (forall w, In w l -> In w words) -> whisper_inv max_chars words st ->
  whisper_inv max_chars words (fold_left (whisper_step max_chars) l st).
Proof.
  revert st. induction l as [|w l IH]; intros st Hsub Hst; simpl; [exact Hst|].
  apply IH.
  - intros w' Hw'. apply Hsub. right. exact Hw'.
  - apply whisper_step_inv; [apply Hsub; left; reflexivity|exact Hst].
Qed.

Lemma whisper_cues_ok (cues : list wcue) :
  whisper_cues max_chars words = Some cues ->
  Forall (fun c => whisper_text_ok max_chars words (wcue_text c)) cues.
Proof.
  intros Hc.
  pose proof (whisper_fold_inv words whisper_init (fun w H => H)
                (conj (Forall_nil_2 _) (or_introl eq_refl))) as [Hb Hcur].
  unfold whisper_cues in Hc.
  set (st := fold_left (whisper_step max_chars) words whisper_init) in *.
  destruct words as [|w0 ws]; [discriminate|].
  injection Hc as <-.
  destruct (current_text st) as [|ch t] eqn:Ht; [exact Hb|].
  apply Forall_app; split; [exact Hb|]. constructor; [|constructor].
  simpl. destruct Hcur as [Hcur|Hcur]; [congruence|]. exact Hcur.
Qed.

End WhisperProofs.

Lemma punct_fold_inv (max_chars : nat) (l : pystr) (segs : list pystr) (cur : pystr) :
  Forall (fun p => p <> []) segs ->
  let '(segs', cur') := fold_left (punct_step max_chars) l (segs, cur) in
  concat segs' ++ cur' = concat segs ++ cur ++ l /\ Forall (fun p => p <> []) segs'.
Proof.
  revert segs cur. induction l as [|ch l IH]; intros segs cur Hs; cbn [fold_left].
  - rewrite !app_nil_r. auto.
  - unfold punct_step at 2.
    destruct (is_split_punct ch && (Nat.div max_chars 2 <=? length (cur ++ [ch]))%nat).
    + specialize (IH (segs ++ [cur ++ [ch]]) []).
      destruct (fold_left _ _ _) as [segs' cur'].
      destruct IH as [IH1 IH2].
      * apply Forall_app; split; [exact Hs|]. constructor; [|constructor].
        destruct cur; discriminate.
      * split; [|exact IH2]. rewrite IH1, concat_app. simpl.
        rewrite !app_nil_r, <- !app_assoc. reflexivity.
    + specialize (IH segs (cur ++ [ch]) Hs).
      destruct (fold_left _ _ _) as [segs' cur'].
      destruct IH as [IH1 IH2]. split; [|exact IH2].
      rewrite IH1, <- !app_assoc. reflexivity.
Qed.

Lemma punct_segments_inv (max_chars : nat) (text : pystr) :
  concat (punct_segments max_chars text) = text /\
  Forall (fun p => p <> []) (punct_segments max_chars text).
Proof.
  unfold punct_segments.
  pose proof (punct_fold_inv max_chars text [] [] ltac:(constructor)) as H.
  destruct (fold_left _ _ _) as [segs cur]. destruct H as [H1 H2].
  simpl in H1. destruct cur as [|ch cur].
  - rewrite app_nil_r in H1. auto.
  - rewrite concat_app. simpl. rewrite app_nil_r. split; [exact H1|].
    apply Forall_app; split; [exact H2|]. constructor; [discriminate|constructor].
Qed.

Lemma force_split_spec (max_chars : nat) (Hm : (1 <= max_chars)%nat) :
  forall (fuel : nat) (seg : pystr), (length seg < fuel)%nat ->
  exists r, force_split fuel max_chars seg = Some r /\ concat r = seg /\
    Forall (fun p => p <> [] /\ (length p <= max_chars)%nat) r.
Proof.
  induction fuel as [|fuel IH]; intros seg Hlen; [lia|].
  simpl. destruct (Nat.ltb_spec max_chars (length seg)) as [Hlt|Hge].
  - destruct (IH (drop max_chars seg)) as (r & Hr & Hc & Hf).
    { rewrite length_drop. lia. }
    rewrite Hr. eexists. split; [reflexivity|]. split.
    + simpl. rewrite Hc. apply take_drop.
    + constructor; [|exact Hf]. split.
      * intros E. apply (f_equal length) in E. rewrite length_take in E. simpl in E. lia.
      * rewrite length_take. lia.
  - destruct seg as [|ch seg].
    + exists []. split; [reflexivity|]. split; [reflexivity|constructor].
    + eexists. split; [reflexivity|]. split; [simpl; rewrite app_nil_r; reflexivity|].
      constructor; [|constructor]. split; [discriminate|exact Hge].
Qed.

Lemma force_split_all_spec (max_chars : nat) (Hm : (1 <= max_chars)%nat)
    (segs : list pystr) :
  exists r, force_split_all max_chars segs = Some r /\ concat r = concat segs /\
    Forall (fun p => p <> [] /\ (length p <= max_chars)%nat) r.
Proof.
  induction segs as [|seg segs IH].
  - exists []. split; [reflexivity|]. split; [reflexivity|constructor].
  - destruct IH as (r2 & H2 & Hc2 & Hf2).
    destruct (force_split_spec max_chars Hm (S (length seg)) seg ltac:(lia))
      as (r1 & H1 & Hc1 & Hf1).
    cbn [force_split_all]. rewrite H1, H2. eexists. split; [reflexivity|].
    split; [rewrite concat_app, Hc1, Hc2; reflexivity|].
    apply Forall_app; split; assumption.
Qed.

Lemma split_text_bounds (text : pystr) (max_chars : nat) :
  (1 <= max_chars)%nat -> text <> [] ->
  exists parts, split_text text max_chars = Return parts /\
    Forall (fun p => p <> [] /\ (length p <= max_chars)%nat) parts.
Proof.
  intros Hm Hne. unfold split_text.
  destruct (Nat.leb_spec (length text) max_chars) as [Hle|Hgt].
  - eexists. split; [reflexivity|]. constructor; [|constructor]. split; assumption.
  - destruct (punct_segments_inv max_chars text) as [Hcat _].
    destruct (force_split_all_spec max_chars Hm (punct_segments max_chars text))
      as (r & Hr & Hc & Hf).
    rewrite Hr. destruct r as [|p ps].
    + simpl in Hc. rewrite Hcat in Hc. congruence.
    + eexists. split; [reflexivity|exact Hf].
Qed.

(** C4 counterexample: with [max_chars = 20], a single transcribed word
    of 21 characters becomes a cue of 21 > 20 characters, since a word is
    never cut. *)
Lemma whisper_long_word_cex :
  whisper_cues 20 [(repeat 97%N 21, 0, 1)] =
    Some [{| wcue_index := 1; wcue_start := Some 0; wcue_end := Some 1;
             wcue_text := repeat 97%N 21 |}] /\
  (20 < length (repeat 97%N 21))%nat.
Proof. split; [reflexivity|]. rewrite repeat_length. lia. Qed.

(** ** Empty text (C8) *)

(** C8 (corrected): an empty text is not rejected. [gen_cover] lays out
    an empty title and body (the first pass fits) and returns normally;
    [gen_subtitles] falls back to the list [[text]] and returns one cue
    with empty text from 0 to [duration - 0.1]. *)
Theorem empty_text_accepted (bbox_w bbox_h : Z -> pystr -> Z) (duration : Q) :
  (exists st a,
     gen_cover_layout bbox_w bbox_h [] = Return (st, a) /\
     st = init_state /\ wrapped_title a = [] /\ wrapped_body a = []) /\
  (exists c,
     gen_subtitles [] duration = [c] /\
     cue_index c = 1%nat /\ cue_text c = [] /\
     cue_start c == 0 /\ cue_end c == duration - (1 # 10)).
Proof.
  split.
  - eexists _, _. split; [reflexivity|]. split; [reflexivity|]. split; reflexivity.
  - eexists. split; [reflexivity|]. split; [reflexivity|]. split; [reflexivity|].
    simpl. split; unfold Q_of_nat; simpl; field.
Qed.

(** C8 counterexample: with a concrete font (50 px per character, 60 px
    line height), the empty text gives a cover layout and a subtitle
    cue, not an error. *)
Lemma empty_text_cex :
  gen_cover_layout (fun _ s => 50 * Z.of_nat (length s))%Z (fun _ _ => 60%Z) [] =
    Return (init_state,
            {| title_font_size := 90; body_font_size := 60; wrapped_title := [];
               wrapped_body := []; total_h := -40 |}) /\
  map (fun c => (cue_index c, cue_start c, cue_end c, cue_text c)) (gen_subtitles [] 3) =
    [(1%nat, 0 # 1, 29 # 10, [])].
Proof. split; reflexivity. Qed.

(** ** [gen_video] (C7, C9) *)

(** C7 (corrected): [gen_video] returns [False] when [ffprobe] exits with
    a non-zero code, without touching the file system; when it exits
    with 0 but its output is not a number, [float()] raises [ValueError]
    out of [gen_video]; otherwise the encoder job is clipped to the
    parsed duration and [gen_video] returns whether [ffmpeg] exited
    with 0. *)
Theorem gen_video_probe_outcomes (ffprobe : fsys -> string -> Z * string)
    (ffmpeg : fsys -> ffmpeg_job -> Z * fsys) (py_float : string -> option Q)
    (tmpdir : string) (fs : fsys) (image audio output : string)
    (subtitles : option string) (rc : Z) (out : string)
    (Hp : ffprobe fs audio = (rc, out)) :
  (rc <> 0%Z ->
   gen_video ffprobe ffmpeg py_float tmpdir fs image audio output subtitles =
     (Return false, fs)) /\
  (rc = 0%Z -> py_float (strip_ascii out) = None ->
   gen_video ffprobe ffmpeg py_float tmpdir fs image audio output subtitles =
     (Raise ValueError, fs)) /\
  (forall d, rc = 0%Z -> py_float (strip_ascii out) = Some d ->
   exists job fs1,
     job_duration job = d /\ job_audio job = audio /\ job_output job = output /\
     gen_video ffprobe ffmpeg py_float tmpdir fs image audio output subtitles =
       (Return ((ffmpeg fs1 job).1 =? 0)%Z, (ffmpeg fs1 job).2)).
Proof.
  unfold gen_video. rewrite Hp.
  split; [|split].
  - intros Hrc. destruct (Z.eqb_spec rc 0); [contradiction|reflexivity].
  - intros -> Hf. simpl. rewrite Hf. reflexivity.
  - intros d -> Hf. simpl. rewrite Hf.
    destruct subtitles as [p|]; [destruct (fs !! p) as [c|]|].
    + exists {| job_image := image; job_audio := audio;
                job_filter := Some (subtitle_filter (temp_srt tmpdir));
                job_duration := d; job_output := output |},
        (<[temp_srt tmpdir := c]> fs).
      do 3 (split; [reflexivity|]). destruct (ffmpeg _ _); reflexivity.
    + exists {| job_image := image; job_audio := audio; job_filter := None;
                job_duration := d; job_output := output |}, fs.
      do 3 (split; [reflexivity|]). destruct (ffmpeg _ _); reflexivity.
    + exists {| job_image := image; job_audio := audio; job_filter := None;
                job_duration := d; job_output := output |}, fs.
      do 3 (split; [reflexivity|]). destruct (ffmpeg _ _); reflexivity.
Qed.

Lemma gen_video_probe_outcomes_witness :
  let ffprobe := fun (_ : fsys) (_ : string) => (0%Z, "12.4"%string) in
  let ffmpeg := fun (fs : fsys) (job : ffmpeg_job) =>
                  (0%Z, <[job_output job := "video"%string]> fs) in
  ffprobe ∅ "a.mp3"%string = (0%Z, "12.4"%string) /\
  py_float_decimal (strip_ascii "12.4") = Some (124 # 10) /\
  exists job fs1,
    job_duration job = 124 # 10 /\ job_audio job = "a.mp3"%string /\
    job_output job = "v.mp4"%string /\
    gen_video ffprobe ffmpeg py_float_decimal "/tmp" ∅ "c.png" "a.mp3" "v.mp4" None =
      (Return ((ffmpeg fs1 job).1 =? 0)%Z, (ffmpeg fs1 job).2).
Proof.
  intros ffprobe ffmpeg.
  assert (Hp : ffprobe ∅ "a.mp3"%string = (0%Z, "12.4"%string)) by reflexivity.
  assert (Hf : py_float_decimal (strip_ascii "12.4") = Some (124 # 10)) by reflexivity.
  split; [exact Hp|]. split; [exact Hf|].
  destruct (gen_video_probe_outcomes ffprobe ffmpeg py_float_decimal "/tmp" ∅
              "c.png" "a.mp3" "v.mp4" None 0%Z "12.4" Hp) as (_ & _ & H).
  exact (H (124 # 10) eq_refl Hf).
Defined.

(** C7 counterexample: [ffprobe] exits with 0 and prints [N/A] (its
    output for a duration it cannot determine); [float("N/A")] raises
    [ValueError], which propagates out of [gen_video] instead of a
    failure return. *)
Lemma gen_video_unparsable_probe_cex :
  py_float_decimal (strip_ascii "N/A") = None /\
  gen_video (fun _ _ => (0%Z, "N/A"%string)) (fun fs _ => (0%Z, fs))
    py_float_decimal "/tmp" ∅ "c.png" "a.mp3" "v.mp4" None = (Raise ValueError, ∅).
Proof. split; reflexivity. Qed.

(** C9 (corrected): when a subtitle file exists and the probe succeeds,
    [gen_video] copies it to [<tmpdir>/temp_subtitles.srt] (overwriting
    any earlier copy) and never removes the copy: after the call the
    temporary file holds the subtitle contents, whatever the encoder's
    exit code (for an encoder that does not itself write that path). *)
Theorem gen_video_keeps_temp_copy (ffprobe : fsys -> string -> Z * string)
    (ffmpeg : fsys -> ffmpeg_job -> Z * fsys) (py_float : string -> option Q)
    (tmpdir : string) (fs : fsys) (image audio output p contents out : string)
    (d : Q)
    (Hff : forall (fs' : fsys) (job : ffmpeg_job),
             (ffmpeg fs' job).2 !! temp_srt tmpdir = fs' !! temp_srt tmpdir)
    (Hp : ffprobe fs audio = (0%Z, out))
    (Hd : py_float (strip_ascii out) = Some d)
    (Hs : fs !! p = Some contents) :
  (gen_video ffprobe ffmpeg py_float tmpdir fs image audio output (Some p)).2
    !! temp_srt tmpdir = Some contents.
Proof.
  unfold gen_video. rewrite Hp. simpl. rewrite Hd, Hs.
  destruct (ffmpeg _ _) as [rc fs2] eqn:E. simpl.
  pose proof (Hff (<[temp_srt tmpdir := contents]> fs)
                {| job_image := image; job_audio := audio;
                   job_filter := Some (subtitle_filter (temp_srt tmpdir));
                   job_duration := d; job_output := output |}) as H.
  rewrite E in H. simpl in H. rewrite H. apply lookup_insert_eq.
Qed.

Lemma gen_video_keeps_temp_copy_witness :
  let fs0 : fsys := <["/data/subtitles.srt"%string := "1"%string]> ∅ in
  let ffmpeg := fun (fs : fsys) (_ : ffmpeg_job) => (1%Z, fs) in
  (forall (fs' : fsys) (job : ffmpeg_job),
     (ffmpeg fs' job).2 !! temp_srt "/tmp" = fs' !! temp_srt "/tmp") /\
  (fun (_ : fsys) (_ : string) => (0%Z, "12.4"%string)) fs0 "a.mp3"%string =
    (0%Z, "12.4"%string) /\
  py_float_decimal (strip_ascii "12.4") = Some (124 # 10) /\
  fs0 !! "/data/subtitles.srt"%string = Some "1"%string /\
  (gen_video (fun _ _ => (0%Z, "12.4"%string)) ffmpeg py_float_decimal "/tmp" fs0
     "c.png" "a.mp3" "v.mp4" (Some "/data/subtitles.srt"%string)).2
    !! temp_srt "/tmp" = Some "1"%string.
Proof.
  intros fs0 ffmpeg.
  assert (Hff : forall (fs' : fsys) (job : ffmpeg_job),
            (ffmpeg fs' job).2 !! temp_srt "/tmp" = fs' !! temp_srt "/tmp")
    by reflexivity.
  assert (Hp : (fun (_ : fsys) (_ : string) => (0%Z, "12.4"%string)) fs0 "a.mp3"%string =
               (0%Z, "12.4"%string)) by reflexivity.
  assert (Hd : py_float_decimal (strip_ascii "12.4") = Some (124 # 10)) by reflexivity.
  assert (Hs : fs0 !! "/data/subtitles.srt"%string = Some "1"%string) by reflexivity.
  split; [exact Hff|]. split; [exact Hp|]. split; [exact Hd|]. split; [exact Hs|].
  exact (gen_video_keeps_temp_copy _ ffmpeg py_float_decimal "/tmp" fs0
           "c.png" "a.mp3" "v.mp4" "/data/subtitles.srt" "1" "12.4" (124 # 10)
           Hff Hp Hd Hs).
Defined.

(** C9 counterexample: before the call the temporary directory has no
    [temp_subtitles.srt]; after [gen_video] it holds the copy, both when
    the encoder fails (return [False]) and when it succeeds. *)
Lemma gen_video_temp_copy_cex :
  let fs0 : fsys := <["/data/subtitles.srt"%string := "1"%string]> ∅ in
  fs0 !! "/tmp/temp_subtitles.srt"%string = None /\
  (let r := gen_video (fun _ _ => (0%Z, "12.4"%string)) (fun fs _ => (1%Z, fs))
              py_float_decimal "/tmp" fs0 "c.png" "a.mp3" "v.mp4"
              (Some "/data/subtitles.srt"%string) in
   r.1 = Return false /\ r.2 !! "/tmp/temp_subtitles.srt"%string = Some "1"%string) /\
  (let r := gen_video (fun _ _ => (0%Z, "12.4"%string))
              (fun fs job => (0%Z, <[job_output job := "video"%string]> fs))
              py_float_decimal "/tmp" fs0 "c.png" "a.mp3" "v.mp4"
              (Some "/data/subtitles.srt"%string) in
   r.1 = Return true /\ r.2 !! "/tmp/temp_subtitles.srt"%string = Some "1"%string).
Proof. vm_compute. repeat split. Qed.

(** * Further properties of the program *)

(** ** String helpers *)

Lemma lstrip_suffix (s : pystr) : exists a, s = a ++ lstrip s.
Proof.
  induction s as [|c s IH]; simpl.
  - exists []. reflexivity.
  - destruct (py_isspace c).
    + destruct IH as [a Ha]. exists (c :: a). simpl. congruence.
    + exists []. reflexivity.
Qed.

Lemma strip_infix (s : pystr) : exists a b, s = a ++ strip s ++ b.
Proof.
  unfold strip.
  destruct (lstrip_suffix s) as [a Ha].
  destruct (lstrip_suffix (rev (lstrip s))) as [b Hb].
  exists a, (rev b).
  rewrite Ha at 1. f_equal.
  remember (lstrip s) as u. remember (rev u) as v.
  assert (Hu : u = rev v) by (subst v; symmetry; apply rev_involutive).
  rewrite Hu at 1. rewrite Hb at 1. apply rev_app_distr.
Qed.

Lemma Forall_infix {A} (P : A -> Prop) (a s b : list A) :
  Forall P (a ++ s ++ b) -> Forall P s.
Proof. rewrite !Forall_app. tauto. Qed.

Lemma Forall_strip (P : pychar -> Prop) (s : pystr) : Forall P s -> Forall P (strip s).
Proof.
  destruct (strip_infix s) as (a & b & E). rewrite E at 1. apply Forall_infix.
Qed.

Lemma no_adjacent_infix (P : pychar -> pychar -> Prop) (u s v : pystr) :
  no_adjacent P (u ++ s ++ v) -> no_adjacent P s.
Proof.
  intros H a b x y E. apply (H (u ++ a) (b ++ v)). subst s.
  rewrite <- !app_assoc. reflexivity.
Qed.

Lemma no_adjacent_strip (P : pychar -> pychar -> Prop) (s : pystr) :
  no_adjacent P s -> no_adjacent P (strip s).
Proof.
  destruct (strip_infix s) as (a & b & E). rewrite E at 1. apply no_adjacent_infix.
Qed.

Lemma no_adjacent_cons (P : pychar -> pychar -> Prop) (x : pychar) (s : pystr) :
  no_adjacent P s -> (forall y s', s = y :: s' -> ~ P x y) -> no_adjacent P (x :: s).
Proof.
  intros Hs Hx a b x' y E.
  destruct a as [|a0 a]; simpl in E; injection E as E1 E2.
  - subst. eapply Hx; eauto.
  - subst. eapply Hs; eauto.
Qed.

Lemma no_adjacent_nil (P : pychar -> pychar -> Prop) : no_adjacent P [].
Proof. intros a b x y E. destruct a; discriminate. Qed.

Lemma no_adjacent_single (P : pychar -> pychar -> Prop) (c : pychar) : no_adjacent P [c].
Proof. intros a b x y E. destruct a as [|? [|? ?]]; discriminate. Qed.

Lemma split_on_no_sep (sep : pychar) (s : pystr) :
  Forall (fun l => Forall (fun c => c <> sep) l) (split_on sep s).
Proof.
  induction s as [|c s IH]; simpl.
  - repeat constructor.
  - destruct (N.eqb_spec c sep).
    + constructor; [constructor | exact IH].
    + destruct (split_on sep s) as [|x r] eqn:E.
      * repeat constructor. assumption.
      * inversion IH; subst. constructor; [constructor; assumption | assumption].
Qed.

Lemma first_line_no_newline (text : pystr) : Forall (fun c => c <> 10%N) (first_line text).
Proof.
  unfold first_line. pose proof (split_on_no_sep 10 text) as H.
  destruct (split_on 10 text); [constructor | inversion H; assumption].
Qed.

Lemma py_slice_to_length (s : pystr) (k : Z) :
  (0 <= k)%Z -> (Z.of_nat (length (py_slice_to s k)) <= k)%Z.
Proof.
  intros Hk. unfold py_slice_to. destruct (Z.leb_spec 0 k); [|lia].
  rewrite length_take. lia.
Qed.

Lemma py_slice_to_prefix (s : pystr) (k : Z) : exists r, s = py_slice_to s k ++ r.
Proof.
  unfold py_slice_to. destruct (0 <=? k)%Z; eexists; symmetry; apply take_drop.
Qed.

Lemma Forall_py_slice_to (P : pychar -> Prop) (s : pystr) (k : Z) :
  Forall P s -> Forall P (py_slice_to s k).
Proof.
  destruct (py_slice_to_prefix s k) as [r E]. rewrite E at 1. rewrite Forall_app. tauto.
Qed.

Lemma Forall_filter_and {A} (P : A -> Prop) `{forall x, Decision (P x)} (R : A -> Prop)
    (l : list A) :
  Forall R l -> Forall (fun x => P x /\ R x) (filter P l).
Proof.
  induction l as [|x l IH]; intros Hl; [constructor|].
  inversion Hl; subst. rewrite filter_cons.
  destruct (decide (P x)); [constructor|]; auto.
Qed.

(** ** GenCover.sanitize_dirname *)

(** X1: the [sanitize_dirname] of gen_cover.py and douyin.py keeps no
    forbidden character ([is_forbidden_name_char]) and no newline (only
    the first line is kept), and its result is at most [max_len]
    characters long for [max_len >= 0]. *)
Theorem gencover_sanitize_dirname_safe (text : pystr) (max_len : Z)
    (Hlen : (0 <= max_len)%Z) :
  Forall (fun c => is_forbidden_name_char c = false /\ c <> 10%N)
    (GenCover.sanitize_dirname text max_len) /\
  (Z.of_nat (length (GenCover.sanitize_dirname text max_len)) <= max_len)%Z.
Proof.
  unfold GenCover.sanitize_dirname. split; [|apply py_slice_to_length; exact Hlen].
  apply Forall_py_slice_to.
  assert (Hs : Forall (fun c => c <> 10%N) (strip (first_line text)))
    by (apply Forall_strip, first_line_no_newline).
  eapply Forall_impl; [apply (Forall_filter_and _ _ _ Hs)|].
  intros c [Hc Hn]. split; [|exact Hn].
  destruct (is_forbidden_name_char c); [contradiction|reflexivity].
Qed.

Lemma gencover_sanitize_dirname_safe_witness :
  let text := [32; 97; 47; 98; 58; 99; 10; 100]%N in
  (0 <= 50)%Z /\
  Forall (fun c => is_forbidden_name_char c = false /\ c <> 10%N)
    (GenCover.sanitize_dirname text 50) /\
  (Z.of_nat (length (GenCover.sanitize_dirname text 50)) <= 50)%Z.
Proof.
  intros text. assert (H : (0 <= 50)%Z) by lia.
  split; [exact H|]. exact (gencover_sanitize_dirname_safe text 50 H).
Defined.

(** ** FeedShare.sanitize_dirname *)

Lemma collapse_underscores_spec (prev : bool) (s : pystr) :
  no_adjacent (fun x y => x = 95%N /\ y = 95%N) (FeedShare.collapse_underscores prev s) /\
  (prev = true -> forall y r, FeedShare.collapse_underscores prev s = y :: r -> y <> 95%N).
Proof.
  revert prev. induction s as [|c s IH]; intros prev; simpl.
  - split; [apply no_adjacent_nil | intros _ y r; discriminate].
  - destruct (N.eqb_spec c 95) as [Hc|Hc].
    + destruct prev.
      * exact (IH true).
      * destruct (IH true) as [H1 H2]. split; [|discriminate].
        apply no_adjacent_cons; [exact H1|].
        intros y s' E [_ Hy]. exact (H2 eq_refl y s' E Hy).
    + destruct (IH false) as [H1 _]. split.
      * apply no_adjacent_cons; [exact H1|]. intros y s' _ [Hx _]. contradiction.
      * intros _ y r [= <- _]. exact Hc.
Qed.

Lemma Forall_collapse_underscores (P : pychar -> Prop) (prev : bool) (s : pystr) :
  Forall P s -> Forall P (FeedShare.collapse_underscores prev s).
Proof.
  revert prev. induction s as [|c s IH]; intros prev Hs; simpl; [constructor|].
  inversion Hs; subst.
  destruct (c =? 95)%N; [destruct prev|]; auto.
Qed.

Lemma lstrip_char_suffix (ch : pychar) (s : pystr) :
  exists a, s = a ++ FeedShare.lstrip_char ch s.
Proof.
  induction s as [|c s IH]; simpl.
  - exists []. reflexivity.
  - destruct (c =? ch)%N.
    + destruct IH as [a Ha]. exists (c :: a). simpl. congruence.
    + exists []. reflexivity.
Qed.

Lemma lstrip_char_head (ch : pychar) (s : pystr) (y : pychar) (r : pystr) :
  FeedShare.lstrip_char ch s = y :: r -> y <> ch.
Proof.
  induction s as [|c s IH]; simpl; [discriminate|].
  destruct (N.eqb_spec c ch); [exact IH|]. intros [= <- _]. assumption.
Qed.

Lemma strip_char_spec (ch : pychar) (s : pystr) :
  (exists a b, s = a ++ FeedShare.strip_char ch s ++ b) /\
  (forall y r, FeedShare.strip_char ch s = y :: r -> y <> ch) /\
  (forall r y, FeedShare.strip_char ch s = r ++ [y] -> y <> ch).
Proof.
  unfold FeedShare.strip_char.
  remember (FeedShare.lstrip_char ch s) as u.
  remember (FeedShare.lstrip_char ch (rev u)) as w.
  destruct (lstrip_char_suffix ch s) as [a Ha]. rewrite <- Hequ in Ha.
  destruct (lstrip_char_suffix ch (rev u)) as [b Hb]. rewrite <- Heqw in Hb.
  assert (Hu : u = rev w ++ rev b).
  { rewrite <- (rev_involutive u). rewrite Hb. apply rev_app_distr. }
  split; [|split].
  - exists a, (rev b). rewrite Ha at 1. rewrite Hu. reflexivity.
  - intros y r E. rewrite E in Hu. simpl in Hu.
    symmetry in Hequ. rewrite Hu in Hequ. exact (lstrip_char_head ch s y _ Hequ).
  - intros r y E. apply (f_equal (@rev _)) in E. rewrite rev_involutive, rev_app_distr in E.
    simpl in E. symmetry in Heqw. rewrite E in Heqw. exact (lstrip_char_head ch _ y _ Heqw).
Qed.

(** X2: the [sanitize_dirname] of feed_share.py returns, for
    [max_len >= 0], a name of at most [max_len] characters with no
    forbidden character and no whitespace, no two adjacent underscores,
    and no underscore at either end. *)
Theorem feedshare_sanitize_dirname_safe (text : pystr) (max_len : Z)
    (Hlen : (0 <= max_len)%Z) :
  let r := FeedShare.sanitize_dirname text max_len in
  Forall (fun c => is_forbidden_name_char c = false /\ py_isspace c = false) r /\
  no_adjacent (fun x y => x = 95%N /\ y = 95%N) r /\
  (forall y rest, r = y :: rest -> y <> 95%N) /\
  (forall rest y, r = rest ++ [y] -> y <> 95%N) /\
  (Z.of_nat (length r) <= max_len)%Z.
Proof.
  unfold FeedShare.sanitize_dirname.
  set (m := map _ _).
  set (u := py_slice_to (FeedShare.collapse_underscores false m) max_len).
  destruct (strip_char_spec 95 u) as ((a & b & Eu) & Hhd & Hlast).
  assert (Hm : Forall (fun c => is_forbidden_name_char c = false /\ py_isspace c = false) m).
  { subst m. apply Forall_map, Forall_forall. intros d _.
    destruct (is_forbidden_name_char d || py_isspace d) eqn:E; [split; reflexivity|].
    apply orb_false_iff in E. exact E. }
  split; [|split; [|split; [exact Hhd|split; [exact Hlast|]]]].
  - apply (Forall_infix _ a _ b). rewrite <- Eu.
    apply Forall_py_slice_to, Forall_collapse_underscores, Hm.
  - apply (no_adjacent_infix _ a _ b). rewrite <- Eu.
    destruct (py_slice_to_prefix (FeedShare.collapse_underscores false m) max_len) as [t Et].
    apply (no_adjacent_infix _ [] _ t). simpl. unfold u. rewrite <- Et.
    apply collapse_underscores_spec.
  - pose proof (py_slice_to_length (FeedShare.collapse_underscores false m) max_len Hlen) as Hl.
    fold u in Hl. rewrite Eu in Hl. rewrite !length_app in Hl. lia.
Qed.

Lemma feedshare_sanitize_dirname_safe_witness :
  let text := [32; 95; 97; 60; 98; 32; 32; 99; 95; 95; 100; 63; 10; 101]%N in
  (0 <= 40)%Z /\
  (let r := FeedShare.sanitize_dirname text 40 in
   Forall (fun c => is_forbidden_name_char c = false /\ py_isspace c = false) r /\
   no_adjacent (fun x y => x = 95%N /\ y = 95%N) r /\
   (forall y rest, r = y :: rest -> y <> 95%N) /\
   (forall rest y, r = rest ++ [y] -> y <> 95%N) /\
   (Z.of_nat (length r) <= 40)%Z).
Proof.
  intros text. assert (H : (0 <= 40)%Z) by lia.
  split; [exact H|]. exact (feedshare_sanitize_dirname_safe text 40 H).
Defined.

(** ** Mentions *)

Section MentionProofs.
Variable ci_eq : pychar -> pychar -> bool.
Variable is_word : pychar -> bool.

Lemma sub_mention_run_head (s : pystr) (y : pychar) (out : pystr) :
  sub_mention ci_eq is_word [] true s = y :: out -> is_word y = false.
Proof.
  revert y out. induction s as [|c s IH]; intros y out; simpl; [discriminate|].
  destruct (is_word c) eqn:Ec; simpl; [apply IH|].
  destruct s as [|d s'].
  - intros [= <- _]. exact Ec.
  - destruct (ci_eq c 64 && is_word d); simpl; [apply IH|].
    intros [= <- _]. exact Ec.
Qed.

Lemma sub_mention_cons (r : pystr) (b : bool) (c : pychar) (s : pystr) :
  sub_mention ci_eq is_word r b (c :: s) =
  if b && is_word c then sub_mention ci_eq is_word r true s
  else match s with
       | d :: _ =>
           if ci_eq c 64 && is_word d then r ++ sub_mention ci_eq is_word r true s
           else c :: sub_mention ci_eq is_word r false s
       | [] => [c]
       end.
Proof. reflexivity. Qed.

Lemma sub_mention_free (b : bool) (s : pystr) :
  no_adjacent (fun x y => ci_eq x 64%N = true /\ is_word y = true) (sub_mention ci_eq is_word [] b s).
Proof.
  revert b. induction s as [|c s IH]; intros b; simpl; [apply no_adjacent_nil|].
  destruct (b && is_word c); [apply IH|].
  destruct s as [|d s'] eqn:Es; [apply no_adjacent_single|].
  destruct (ci_eq c 64 && is_word d) eqn:Ecd; [exact (IH true)|].
  apply no_adjacent_cons; [apply IH|].
  intros y out E [Hc Hy]. rewrite Hc in Ecd. simpl in Ecd.
  (* the first character after [c] that survives is not a word character *)
  rewrite sub_mention_cons in E. cbn [andb] in E.
  destruct s' as [|e s''].
  - injection E as <- _. congruence.
  - destruct (ci_eq d 64 && is_word e) eqn:Ede; cbn [app] in E.
    + apply sub_mention_run_head in E. congruence.
    + injection E as <- _. congruence.
Qed.

Lemma sanitize_content_last (text : pystr) :
  exists t, sanitize_content ci_eq is_word text = sub_mention ci_eq is_word [] false t /\
            sanitize_for_douyin ci_eq is_word text = strip (sub_mention ci_eq is_word [] false t).
Proof. eexists. split; reflexivity. Qed.

End MentionProofs.

(** X3: after [sanitize_content] and after [sanitize_for_douyin], no
    character matching [@] is followed by a word character: every mention
    [@\w+] is gone, including those that earlier replacements leave. *)
Theorem sanitize_removes_mentions (ci_eq : pychar -> pychar -> bool)
    (is_word : pychar -> bool) (text : pystr) :
  no_adjacent (fun x y => ci_eq x 64%N = true /\ is_word y = true)
    (sanitize_content ci_eq is_word text) /\
  no_adjacent (fun x y => ci_eq x 64%N = true /\ is_word y = true)
    (sanitize_for_douyin ci_eq is_word text).
Proof.
  destruct (sanitize_content_last ci_eq is_word text) as (t & E1 & E2).
  rewrite E1, E2. split; [|apply no_adjacent_strip]; apply sub_mention_free.
Qed.

(** ** parse_tweets *)

Lemma parse_step_inv (st : list tweet * tweet) (line : pystr) :
  Forall (fun c => c <> 10%N) line -> parse_inv st -> parse_inv (parse_step st line).
Proof.
  destruct st as [tweets cur]. intros Hl (H1 & H2 & H3 & H4). unfold parse_step.
  destruct (bool_decide_reflect (strip line = [])) as [Hs|Hs]; [repeat split; auto|].
  destruct (is_header (strip line)) eqn:Eh.
  - unfold parse_inv; simpl. split; [|split; [|split]].
    + destruct (bool_decide_reflect (content cur = [])) as [Hc|Hc]; [exact H1|].
      apply Forall_app; split; [exact H1|]. constructor; [|constructor].
      assert (Ha : author cur <> []) by (intros Ha; exact (Hc (H2 Ha))).
      split; [exact Hc|]. split; [exact (H3 Ha)|exact H4].
    + reflexivity.
    + intros _. unfold is_header in Eh. apply andb_true_iff in Eh. tauto.
    + constructor.
  - destruct (bool_decide_reflect (author cur = [])) as [Ha|Ha]; [repeat split; auto|].
    destruct (existsb _ skip_keywords) eqn:Ek; [repeat split; auto|].
    unfold parse_inv; simpl. split; [exact H1|]. split; [intros E; contradiction|].
    split; [exact H3|]. apply Forall_app; split; [exact H4|]. constructor; [|constructor].
    split; [exact Hs|]. split; [apply Forall_strip, Hl|exact Ek].
Qed.

Lemma parse_step_flat (st : list tweet * tweet) (line : pystr) :
  flat_content (parse_step st line) = flat_content st \/
  flat_content (parse_step st line) = flat_content st ++ [strip line].
Proof.
  destruct st as [tweets cur]. unfold parse_step.
  destruct (bool_decide_reflect (strip line = [])); [left; reflexivity|].
  destruct (is_header (strip line)).
  - left. unfold flat_content; simpl.
    destruct (bool_decide_reflect (content cur = [])) as [Hc|Hc].
    + rewrite Hc. reflexivity.
    + rewrite map_app, concat_app. simpl. rewrite !app_nil_r. reflexivity.
  - destruct (bool_decide (author cur = [])); [left; reflexivity|].
    destruct (existsb _ skip_keywords); [left; reflexivity|].
    right. unfold flat_content; simpl. apply app_assoc.
Qed.

Lemma parse_fold (lines : list pystr) (st : list tweet * tweet) :
  Forall (fun l => Forall (fun c => c <> 10%N) l) lines -> parse_inv st ->
  parse_inv (fold_left parse_step lines st) /\
  flat_content (fold_left parse_step lines st) `sublist_of` flat_content st ++ map strip lines.
Proof.
  revert st. induction lines as [|l lines IH]; intros st Hls Hst; simpl.
  - rewrite app_nil_r. split; [exact Hst|reflexivity].
  - inversion Hls; subst.
    destruct (IH (parse_step st l) ltac:(assumption) (parse_step_inv st l ltac:(assumption) Hst))
      as [I1 I2].
    split; [exact I1|]. etransitivity; [exact I2|].
    destruct (parse_step_flat st l) as [E|E]; rewrite E.
    + apply sublist_app; [reflexivity|]. apply sublist_cons, reflexivity.
    + rewrite <- app_assoc. reflexivity.
Qed.

Lemma parse_tweets_spec (ocr_text : pystr) :
  Forall tweet_ok (parse_tweets ocr_text) /\
  concat (map content (parse_tweets ocr_text)) `sublist_of` map strip (split_on 10 ocr_text).
Proof.
  unfold parse_tweets.
  assert (H0 : parse_inv ([], {| author := []; content := [] |})).
  { repeat split; try constructor. intros H; contradiction. }
  destruct (parse_fold (split_on 10 ocr_text) _ (split_on_no_sep 10 ocr_text) H0) as [Hi Hs].
  destruct (fold_left _ _ _) as [tweets cur].
  destruct Hi as (H1 & H2 & H3 & H4). unfold flat_content in Hs; simpl in Hs.
  destruct (bool_decide_reflect (content cur = [])) as [Hc|Hc].
  - rewrite Hc, app_nil_r in Hs. split; [exact H1|exact Hs].
  - split.
    + apply Forall_app; split; [exact H1|]. constructor; [|constructor].
      assert (Ha : author cur <> []) by (intros Ha; exact (Hc (H2 Ha))).
      split; [exact Hc|]. split; [exact (H3 Ha)|exact H4].
    + rewrite map_app, concat_app. simpl. rewrite app_nil_r. exact Hs.
Qed.

(** X4: every tweet returned by [parse_tweets] has at least one content
    line and an author line containing [@]; every content line is
    non-empty, has no newline and contains none of the skip keywords. *)
Theorem parse_tweets_wellformed (ocr_text : pystr) :
  Forall (fun t =>
            content t <> [] /\ contains [64%N] (author t) = true /\
            Forall (fun l => l <> [] /\ Forall (fun c => c <> 10%N) l /\
                             existsb (fun kw => contains kw l) skip_keywords = false)
              (content t))
    (parse_tweets ocr_text).
Proof. apply (parse_tweets_spec ocr_text). Qed.

(** X5: the content lines of the tweets returned by [parse_tweets],
    concatenated in order, are a subsequence of the stripped input lines:
    lines are only dropped, never reordered, duplicated or altered beyond
    stripping. *)
Theorem parse_tweets_sublist (ocr_text : pystr) :
  concat (map content (parse_tweets ocr_text)) `sublist_of` map strip (split_on 10 ocr_text).
Proof. apply (parse_tweets_spec ocr_text). Qed.

(** ** generate_script *)

Lemma split_on_app_nosep (sep : pychar) (x y z : pystr) (r : list pystr) :
  Forall (fun c => c <> sep) x -> split_on sep y = z :: r ->
  split_on sep (x ++ y) = (x ++ z) :: r.
Proof.
  intros Hx Hy. induction Hx as [|c x Hc Hx IH]; simpl; [exact Hy|].
  rewrite IH. destruct (N.eqb_spec c sep); [contradiction|reflexivity].
Qed.

Lemma split_on_join (sep : pychar) (ls : list pystr) :
  ls <> [] -> Forall (fun l => Forall (fun c => c <> sep) l) ls ->
  split_on sep (join [sep] ls) = ls.
Proof.
  intros Hne Hls. induction Hls as [|x ls Hx Hls IH]; [contradiction|].
  destruct ls as [|y ls].
  - simpl. rewrite <- (app_nil_r x) at 1.
    rewrite (split_on_app_nosep sep x [] [] [] Hx eq_refl), app_nil_r. reflexivity.
  - change (join [sep] (x :: y :: ls)) with (x ++ sep :: join [sep] (y :: ls)).
    rewrite (split_on_app_nosep sep x (sep :: join [sep] (y :: ls)) [] (y :: ls) Hx).
    + rewrite app_nil_r. reflexivity.
    + cbn [split_on]. rewrite N.eqb_refl, IH by discriminate. reflexivity.
Qed.

Lemma Forall_join (P : pychar -> Prop) (sep : pystr) (ls : list pystr) :
  Forall P sep -> Forall (Forall P) ls -> Forall P (join sep ls).
Proof.
  intros Hsep Hls. induction Hls as [|x ls Hx Hls IH]; [constructor|].
  destruct ls as [|y ls]; [exact Hx|].
  change (join sep (x :: y :: ls)) with (x ++ sep ++ join sep (y :: ls)).
  rewrite !Forall_app. auto.
Qed.

Lemma Forall_sub_literal (ci_eq : pychar -> pychar -> bool) (P : pychar -> Prop)
    (p r : pystr) (skip : nat) (s : pystr) :
  Forall P r -> Forall P s -> Forall P (sub_literal ci_eq p r skip s).
Proof.
  intros Hr Hs. revert skip. induction Hs as [|c s Hc Hs IH]; intros skip; simpl; [constructor|].
  destruct skip; [|apply IH].
  destruct (ci_prefix ci_eq p (c :: s)); [apply Forall_app; auto|constructor; auto].
Qed.

Lemma Forall_sub_mention (ci_eq : pychar -> pychar -> bool) (is_word : pychar -> bool)
    (P : pychar -> Prop) (r : pystr) (b : bool) (s : pystr) :
  Forall P r -> Forall P s -> Forall P (sub_mention ci_eq is_word r b s).
Proof.
  intros Hr Hs. revert b. induction Hs as [|c s Hc Hs IH]; intros b; [constructor|].
  rewrite sub_mention_cons. destruct (b && is_word c); [apply IH|].
  destruct s as [|d s']; [repeat constructor; exact Hc|].
  destruct (ci_eq c 64%N && is_word d); [apply Forall_app; auto|constructor; auto].
Qed.

Lemma Forall_sanitize_fold (ci_eq : pychar -> pychar -> bool) (is_word : pychar -> bool)
    (P : pychar -> Prop) (reps : list (pattern * pystr)) (s : pystr) :
  Forall (fun pr => Forall P pr.2) reps -> Forall P s ->
  Forall P (fold_left (fun text '(pattern, replacement) =>
                         re_sub ci_eq is_word pattern replacement text) reps s).
Proof.
  revert s. induction reps as [|[pat r] reps IH]; intros s Hreps Hs; simpl; [exact Hs|].
  inversion Hreps; subst. apply IH; [assumption|].
  destruct pat; simpl; [apply Forall_sub_literal|apply Forall_sub_mention]; assumption.
Qed.

Lemma sanitize_for_douyin_no_newline (ci_eq : pychar -> pychar -> bool)
    (is_word : pychar -> bool) (s : pystr) :
  Forall (fun c => c <> 10%N) s ->
  Forall (fun c => c <> 10%N) (sanitize_for_douyin ci_eq is_word s).
Proof.
  intros Hs. unfold sanitize_for_douyin. apply Forall_strip.
  apply Forall_sanitize_fold; [|exact Hs].
  unfold sensitive_replacements. repeat constructor; discriminate.
Qed.

Lemma dec_digits_no_newline (n : N) :
  Forall (fun c => c <> 10%N) (ascii_pystr (dec_digits n)).
Proof.
  unfold ascii_pystr, dec_digits. generalize (N.to_uint n). intros u.
  induction u; simpl; repeat constructor; try discriminate; assumption.
Qed.

Lemma script_body_spec (ci_eq : pychar -> pychar -> bool) (is_word : pychar -> bool)
    (i : nat) (tweets : list tweet) :
  Forall (fun t => Forall (Forall (fun c => c <> 10%N)) (content t)) tweets ->
  Forall (script_line i (i + length tweets)) (script_body ci_eq is_word i tweets) /\
  (length (script_body ci_eq is_word i tweets) <= length tweets)%nat.
Proof.
  revert i. induction tweets as [|t tweets IH]; intros i Ht; simpl; [split; [constructor|lia]|].
  inversion Ht as [|? ? Ht1 Ht2]; subst. destruct (IH (S i) Ht2) as [H1 H2].
  set (c := sanitize_for_douyin ci_eq is_word (join [32%N] (content t))).
  assert (Hc : Forall (fun c => c <> 10%N) c).
  { apply sanitize_for_douyin_no_newline, Forall_join; [repeat constructor; discriminate|assumption]. }
  assert (Hw : forall m, script_line (S i) (S i + length tweets) m ->
                         script_line i (i + S (length tweets)) m).
  { intros m (j & d & E & Hj & Hd & Hm). exists j, d. repeat split; auto; lia. }
  destruct (bool_decide_reflect (c = [])) as [E|E]; simpl.
  - split; [|lia]. eapply Forall_impl; [exact H1|exact Hw].
  - split; [|lia]. constructor; [|eapply Forall_impl; [exact H1|exact Hw]].
    exists i, c. split; [reflexivity|]. split; [lia|]. split; [exact E|].
    constructor; [discriminate|]. apply Forall_app; split; [apply dec_digits_no_newline|].
    repeat constructor; try discriminate. exact Hc.
Qed.

(** X6: for a non-empty list of tweets whose content lines have no
    newline (as [parse_tweets] returns them), [generate_script] returns
    the title 今日网络见闻 and a script whose lines are the greeting, then
    at most one line [第{i}个，{content}] per tweet with [1 <= i <= n] and
    a non-empty content, then the closing line. *)
Theorem generate_script_lines (ci_eq : pychar -> pychar -> bool) (is_word : pychar -> bool)
    (tweets : list tweet) (Hne : tweets <> [])
    (Hnl : Forall (fun t => Forall (Forall (fun c => c <> 10%N)) (content t)) tweets) :
  (generate_script ci_eq is_word tweets).1 = script_title /\
  exists mids,
    split_on 10 (generate_script ci_eq is_word tweets).2 = greeting :: mids ++ [closing] /\
    (length mids <= length tweets)%nat /\
    Forall (fun m => exists i c,
              m = [31532%N] ++ ascii_pystr (dec_digits (N.of_nat i)) ++ [20010; 65292]%N ++ c /\
              (1 <= i <= length tweets)%nat /\ c <> []) mids.
Proof.
  destruct tweets as [|t rest]; [contradiction|]. cbn [generate_script fst snd].
  split; [reflexivity|].
  destruct (script_body_spec ci_eq is_word 1 (t :: rest) Hnl) as [H1 H2].
  exists (script_body ci_eq is_word 1 (t :: rest)). split; [|split; [exact H2|]].
  - apply split_on_join; [discriminate|]. constructor.
    + unfold greeting. repeat constructor; discriminate.
    + apply Forall_app; split.
      * eapply Forall_impl; [exact H1|]. intros m (i & c & _ & _ & _ & Hm). exact Hm.
      * constructor; [|constructor]. unfold closing. repeat constructor; discriminate.
  - eapply Forall_impl; [exact H1|]. intros m (i & c & E & Hi & Hc & _).
    exists i, c. split; [exact E|]. split; [lia|exact Hc].
Qed.

Lemma generate_script_lines_witness :
  let ci_eq := N.eqb in
  let is_word := fun c => ((97 <=? c) && (c <=? 122))%N in
  let tweets := [{| author := [64; 97]%N; content := [[104; 105]%N; [64; 98]%N] |};
                 {| author := [64; 99]%N; content := [[64; 100]%N] |}] in
  tweets <> [] /\
  Forall (fun t => Forall (Forall (fun c => c <> 10%N)) (content t)) tweets /\
  (generate_script ci_eq is_word tweets).1 = script_title /\
  exists mids,
    split_on 10 (generate_script ci_eq is_word tweets).2 = greeting :: mids ++ [closing] /\
    (length mids <= length tweets)%nat /\
    Forall (fun m => exists i c,
              m = [31532%N] ++ ascii_pystr (dec_digits (N.of_nat i)) ++ [20010; 65292]%N ++ c /\
              (1 <= i <= length tweets)%nat /\ c <> []) mids.
Proof.
  intros ci_eq is_word tweets.
  assert (Hne : tweets <> []) by discriminate.
  assert (Hnl : Forall (fun t => Forall (Forall (fun c => c <> 10%N)) (content t)) tweets)
    by (repeat constructor; discriminate).
  split; [exact Hne|]. split; [exact Hnl|].
  exact (generate_script_lines ci_eq is_word tweets Hne Hnl).
Defined.

(** ** read_title_content *)

Lemma split_once_spec (sep : pychar) (s : pystr) :
  (FeedShare.split_once sep s = [s] /\ Forall (fun c => c <> sep) s) \/
  (exists a b, FeedShare.split_once sep s = [a; b] /\ s = a ++ sep :: b /\
               Forall (fun c => c <> sep) a).
Proof.
  induction s as [|c s IH]; simpl; [left; split; [reflexivity|constructor]|].
  destruct (N.eqb_spec c sep) as [Hc|Hc].
  - right. exists [], s. subst. repeat split; constructor.
  - destruct IH as [[E Hs]|(a & b & E & Es & Ha)]; rewrite E.
    + left. split; [reflexivity|constructor; assumption].
    + right. exists (c :: a), b. subst. repeat split; constructor; assumption.
Qed.

Lemma lstrip_head (s : pystr) (y : pychar) (r : pystr) :
  lstrip s = y :: r -> py_isspace y = false.
Proof.
  induction s as [|c s IH]; simpl; [discriminate|].
  destruct (py_isspace c) eqn:E; [exact IH|]. intros [= <- _]. exact E.
Qed.

Lemma strip_head (s : pystr) (y : pychar) (r : pystr) :
  strip s = y :: r -> py_isspace y = false.
Proof.
  unfold strip. intros E.
  destruct (lstrip_suffix (rev (lstrip s))) as [b Hb].
  assert (Hu : lstrip s = rev (lstrip (rev (lstrip s))) ++ rev b).
  { rewrite <- (rev_involutive (lstrip s)) at 1. rewrite Hb at 1. apply rev_app_distr. }
  rewrite E in Hu. exact (lstrip_head s y _ Hu).
Qed.

(** X7: when [main] reads title and content from a file, the title has
    no newline; either the stripped file is the title, a newline and the
    content, or it has no newline and the content is the title itself;
    the title is empty only when the stripped file is. *)
Theorem read_title_content_split (file_text : pystr) :
  let '(title, content) := FeedShare.read_title_content file_text in
  Forall (fun c => c <> 10%N) title /\
  (strip file_text = title ++ 10%N :: content \/ (strip file_text = title /\ content = title)) /\
  (title = [] -> strip file_text = []).
Proof.
  unfold FeedShare.read_title_content.
  destruct (split_once_spec 10 (strip file_text)) as [[E Hs]|(a & b & E & Es & Ha)];
    rewrite E; cbn beta iota.
  - split; [exact Hs|]. split; [right; split; reflexivity|]. intros H. exact H.
  - split; [exact Ha|]. split; [left; exact Es|].
    intros ->. simpl in Es. apply strip_head in Es. discriminate.
Qed.

(** ** The VTT parser *)

Lemma outcome_ok_bind {A B} (P : A -> Prop) (R : B -> Prop) (m : outcome A)
    (k : A -> outcome B) :
  outcome_ok P m -> (forall a, P a -> outcome_ok R (k a)) -> outcome_ok R (outcome_bind m k).
Proof. destruct m; simpl; auto. Qed.

Lemma outcome_ok_list_get {A} (l : list A) (i : nat) :
  outcome_ok (fun _ => True) (list_get l i).
Proof. unfold list_get. destruct (nth_error l i); exact I. Qed.

Lemma outcome_ok_parse_time (py_float_str : pystr -> option Q) (s : pystr) :
  outcome_ok (fun _ => True) (parse_time py_float_str s).
Proof.
  assert (Hf : forall t, outcome_ok (fun _ => True) (float_o py_float_str t)).
  { intros t. unfold float_o. destruct (py_float_str t); exact I. }
  unfold parse_time.
  repeat (apply (outcome_ok_bind (fun _ => True)); [apply outcome_ok_list_get || apply Hf|intros ? _]).
  exact I.
Qed.

Lemma join_nonempty (sep : pystr) (ls : list pystr) :
  Forall (fun l => l <> []) ls -> ls <> [] -> join sep ls <> [].
Proof.
  intros Hls Hne. destruct Hls as [|x ls Hx Hls]; [contradiction|].
  destruct ls as [|y ls]; simpl; [exact Hx|].
  destruct x; [contradiction|discriminate].
Qed.

Lemma collect_text_spec (is_digit_char : pychar -> bool) (ls : list pystr) :
  Forall (fun l => l <> []) (collect_text is_digit_char ls).1 /\
  (length (collect_text is_digit_char ls).2 <= length ls)%nat.
Proof.
  induction ls as [|l ls IH]; simpl; [split; [constructor|lia]|].
  destruct (contains arrow l || py_isdigit is_digit_char (strip l)); simpl; [split; [constructor|lia]|].
  destruct (collect_text is_digit_char ls) as [tl rest] eqn:E. simpl in IH |- *.
  destruct IH as [H1 H2]. split; [|lia].
  destruct (bool_decide_reflect (strip l = [])); simpl; [exact H1|constructor; assumption].
Qed.

Lemma parse_blocks_ok (py_float_str : pystr -> option Q) (is_decimal is_digit_char : pychar -> bool)
    (fuel : nat) (ls : list pystr) (raw : list (Q * Q * pystr)) :
  (length ls < fuel)%nat -> raw_texts_ok raw ->
  outcome_ok raw_texts_ok (parse_blocks py_float_str is_decimal is_digit_char fuel ls raw).
Proof.
  revert ls raw. induction fuel as [|fuel IH]; intros ls raw Hl Hraw; [lia|].
  destruct ls as [|l rest]; [exact Hraw|]. simpl in Hl. cbn [parse_blocks].
  destruct (py_isdigit is_digit_char (strip l)); [apply IH; auto; lia|].
  destruct (contains arrow (strip l)); [|apply IH; auto; lia].
  apply (outcome_ok_bind (fun _ => True));
    [apply (outcome_ok_bind (fun _ => True)); [apply outcome_ok_list_get|intros; apply outcome_ok_parse_time]|].
  intros start _.
  apply (outcome_ok_bind (fun _ => True));
    [apply (outcome_ok_bind (fun _ => True)); [apply outcome_ok_list_get|intros; apply outcome_ok_parse_time]|].
  intros end_ _.
  pose proof (collect_text_spec is_digit_char rest) as [Ht Hr].
  destruct (collect_text is_digit_char rest) as [tl rest'] eqn:E. simpl in Ht, Hr.
  apply IH; [lia|].
  destruct (bool_decide_reflect (tl = [])); [exact Hraw|].
  unfold raw_texts_ok. apply Forall_app; split; [exact Hraw|].
  constructor; [|constructor]. apply join_nonempty; assumption.
Qed.

Lemma vtt_parse_ok (py_float_str : pystr -> option Q) (is_decimal is_digit_char : pychar -> bool)
    (content : pystr) :
  vtt_raw_subtitles py_float_str is_decimal is_digit_char content <> Diverge /\
  forall raw, vtt_raw_subtitles py_float_str is_decimal is_digit_char content = Return raw ->
    Forall (fun r => r.2 <> []) raw.
Proof.
  pose proof (parse_blocks_ok py_float_str is_decimal is_digit_char
                (S (length (vtt_lines content))) (vtt_lines content) [] ltac:(lia) (Forall_nil_2 _)) as H.
  unfold vtt_raw_subtitles. destruct (parse_blocks _ _ _ _ _ _) as [raw|e|]; simpl in H.
  - split; [discriminate|]. intros ? [= <-]. exact H.
  - split; [discriminate|]. intros ? [=].
  - contradiction.
Qed.

(** X8: the subtitle-block loop of [vtt_to_srt] always terminates: it
    either returns the parsed cues or raises (an [IndexError] or a
    [ValueError] of [parse_time]); every parsed cue has a non-empty text. *)
Theorem vtt_parse_total (py_float_str : pystr -> option Q) (is_decimal is_digit_char : pychar -> bool)
    (content : pystr) :
  vtt_raw_subtitles py_float_str is_decimal is_digit_char content <> Diverge /\
  forall raw, vtt_raw_subtitles py_float_str is_decimal is_digit_char content = Return raw ->
    Forall (fun r => r.2 <> []) raw.
Proof. exact (vtt_parse_ok py_float_str is_decimal is_digit_char content). Qed.

Lemma shrink_loop_cases (bbox_w bbox_h : Z -> pystr -> Z) (title : pystr)
    (body_lines : list pystr) :
  exists st a,
    shrink_loop bbox_w bbox_h title body_lines 7 init_state None = Some (st, Some a) /\
    ((a = measure_attempt bbox_w bbox_h title body_lines st /\
      (total_h a <= max_content_height)%Z /\
      (0 <= spacing st <= title_body_gap st)%Z) \/
     (a = measure_attempt bbox_w bbox_h title body_lines
            {| title_size := 40; body_size := 26; spacing := 16; title_body_gap := 26 |} /\
      st = {| title_size := 30; body_size := 20; spacing := 12; title_body_gap := 20 |} /\
      (max_content_height < total_h a)%Z)).
Proof.
  cbn -[measure_attempt].
  repeat match goal with
         | |- context [ (?x <=? ?y)%Z ] => destruct (Z.leb_spec x y)
         end;
  try (exfalso; lia);
  (eexists _, _; split; [reflexivity|]);
  solve [ left; split; [reflexivity|]; split; [assumption|split; vm_compute; intros Hc; discriminate Hc]
        | right; split; [reflexivity|]; split; [reflexivity|assumption] ].
Qed.

Section DrawProofs.
Variable bbox_w : Z -> pystr -> Z.
Variable bbox_h : Z -> pystr -> Z.

Lemma hsum_shift (f sp : Z) (lines : list pystr) (y c : Z) :
  hsum bbox_h f sp lines (y + c) = (hsum bbox_h f sp lines y + c)%Z.
Proof.
  revert y. induction lines as [|l lines IH]; intros y; [reflexivity|].
  change (hsum bbox_h f sp (l :: lines) (y + c)) with (hsum bbox_h f sp lines (y + c + bbox_h f l + sp)).
  change (hsum bbox_h f sp (l :: lines) y) with (hsum bbox_h f sp lines (y + bbox_h f l + sp)).
  rewrite <- IH. f_equal. lia.
Qed.

Hypothesis Hh : forall f l, (0 <= bbox_h f l)%Z.

Lemma hsum_mono (f sp : Z) (lines : list pystr) (y : Z) :
  (0 <= sp)%Z -> (y <= hsum bbox_h f sp lines y)%Z.
Proof.
  intros Hsp. revert y. induction lines as [|l lines IH]; intros y; [reflexivity|].
  change (hsum bbox_h f sp (l :: lines) y) with (hsum bbox_h f sp lines (y + bbox_h f l + sp)).
  specialize (IH (y + bbox_h f l + sp)%Z). specialize (Hh f l). lia.
Qed.

Lemma drawn_ok_weaken (f sp : Z) (lines : list pystr) (lo hi lo' hi' : Z) (d : Z * Z * Z * pystr) :
  (lo' <= lo)%Z -> (hi <= hi')%Z -> drawn_ok bbox_w bbox_h f sp lines lo hi d -> drawn_ok bbox_w bbox_h f sp lines lo' hi' d.
Proof. destruct d as [[[x y] f'] line]. simpl. intuition lia. Qed.

Lemma draw_lines_spec (f sp : Z) (lines : list pystr) (y : Z) :
  (0 <= sp)%Z ->
  (draw_lines bbox_w bbox_h f sp lines y).2 = hsum bbox_h f sp lines y /\
  map (fun d => d.2) (draw_lines bbox_w bbox_h f sp lines y).1 = lines /\
  Forall (drawn_ok bbox_w bbox_h f sp lines y (hsum bbox_h f sp lines y)) (draw_lines bbox_w bbox_h f sp lines y).1.
Proof.
  intros Hsp. revert y. induction lines as [|l lines IH]; intros y; [repeat split; constructor|].
  cbn [draw_lines].
  specialize (IH (y + bbox_h f l + sp)%Z).
  destruct (draw_lines bbox_w bbox_h f sp lines (y + bbox_h f l + sp)) as [ds y'] eqn:E.
  simpl in IH |- *. destruct IH as (H1 & H2 & H3).
  change (hsum bbox_h f sp (l :: lines) y) with (hsum bbox_h f sp lines (y + bbox_h f l + sp)).
  split; [exact H1|]. split; [rewrite H2; reflexivity|].
  pose proof (hsum_mono f sp lines (y + bbox_h f l + sp) Hsp) as Hm.
  pose proof (Hh f l) as Hl.
  constructor.
  - simpl. repeat split; [left; reflexivity|lia|lia].
  - eapply Forall_impl; [exact H3|]. intros [[[x yi] f'] line] (? & Hin & ? & ? & ?).
    simpl. repeat split; [assumption|right; exact Hin|assumption|lia|lia].
Qed.

Lemma draw_cover_spec (st : shrink_state) (a : attempt) :
  (0 <= spacing st <= title_body_gap st)%Z ->
  let y0 := ((height_px - total_h a) / 2)%Z in
  map (fun d => d.2) (draw_cover bbox_w bbox_h st a) = wrapped_title a ++ wrapped_body a /\
  Forall (fun d => drawn_ok bbox_w bbox_h (title_font_size a) (spacing st) (wrapped_title a) y0
                     (y0 + drawn_height bbox_h st a + spacing st) d \/
                   drawn_ok bbox_w bbox_h (body_font_size a) (spacing st) (wrapped_body a) y0
                     (y0 + drawn_height bbox_h st a + spacing st) d)
    (draw_cover bbox_w bbox_h st a).
Proof.
  intros [Hsp Hgap] y0. unfold draw_cover. fold y0.
  destruct (draw_lines_spec (title_font_size a) (spacing st) (wrapped_title a) y0 Hsp) as (T1 & T2 & T3).
  destruct (draw_lines bbox_w bbox_h (title_font_size a) (spacing st) (wrapped_title a) y0)
    as [tds yt] eqn:Et. simpl in T1, T2, T3.
  set (yb := match wrapped_title a, wrapped_body a with
             | _ :: _, _ :: _ => (yt + (title_body_gap st - spacing st))%Z
             | _, _ => yt end).
  assert (Hyb : yb = (yt + gap_term st a)%Z).
  { unfold yb, gap_term. destruct (wrapped_title a), (wrapped_body a); lia. }
  assert (Hg : (0 <= gap_term st a)%Z).
  { unfold gap_term. destruct (wrapped_title a), (wrapped_body a); lia. }
  destruct (draw_lines_spec (body_font_size a) (spacing st) (wrapped_body a) yb Hsp) as (B1 & B2 & B3).
  destruct (draw_lines bbox_w bbox_h (body_font_size a) (spacing st) (wrapped_body a) yb)
    as [bds yend] eqn:Eb. simpl in B1, B2, B3.
  assert (Hend : hsum bbox_h (body_font_size a) (spacing st) (wrapped_body a) yb =
                 (y0 + drawn_height bbox_h st a + spacing st)%Z).
  { unfold drawn_height. rewrite Hyb, T1.
    assert (E1 : hsum bbox_h (title_font_size a) (spacing st) (wrapped_title a) y0 =
                 (hsum bbox_h (title_font_size a) (spacing st) (wrapped_title a) 0 + y0)%Z).
    { rewrite <- hsum_shift; try (f_equal; lia). }
    rewrite E1.
    replace (hsum bbox_h (title_font_size a) (spacing st) (wrapped_title a) 0 + y0 + gap_term st a)%Z
      with (hsum bbox_h (title_font_size a) (spacing st) (wrapped_title a) 0 + gap_term st a + y0)%Z
      by lia.
    rewrite hsum_shift. lia. }
  pose proof (hsum_mono (body_font_size a) (spacing st) (wrapped_body a) yb Hsp) as Hmb.
  pose proof (hsum_mono (title_font_size a) (spacing st) (wrapped_title a) y0 Hsp) as Hmt.
  split; [rewrite map_app, T2, B2; reflexivity|].
  apply Forall_app; split.
  - eapply Forall_impl; [exact T3|]. intros d Hd. left.
    eapply drawn_ok_weaken; [| |exact Hd]; lia.
  - eapply Forall_impl; [exact B3|]. intros d Hd. right.
    eapply drawn_ok_weaken; [| |exact Hd]; lia.
Qed.

Lemma drawn_height_measure (title : pystr) (body_lines : list pystr) (st : shrink_state) :
  drawn_height bbox_h st (measure_attempt bbox_w bbox_h title body_lines st) =
  total_h (measure_attempt bbox_w bbox_h title body_lines st).
Proof.
  unfold drawn_height, gap_term, measure_attempt. cbn [wrapped_title wrapped_body total_h
    title_font_size body_font_size].
  destruct (match title with [] => [] | _ => _ end) as [|t wt];
    destruct (flat_map _ body_lines) as [|b wb];
    unfold hsum; rewrite ?Z.add_0_r; reflexivity.
Qed.

Lemma draw_lines_first (f sp : Z) (lines : list pystr) (y : Z) x y' f' l ds :
  (draw_lines bbox_w bbox_h f sp lines y).1 = (x, y', f', l) :: ds -> y' = y.
Proof.
  destruct lines as [|l0 lines]; cbn [draw_lines]; [discriminate|].
  destruct (draw_lines _ _ _ _ lines _). simpl. intros E. injection E as _ Ey. exact (eq_sym Ey).
Qed.

Lemma draw_lines_last (f sp : Z) (lines : list pystr) (y : Z) x yl f' l ds :
  (draw_lines bbox_w bbox_h f sp lines y).1 = ds ++ [(x, yl, f', l)] ->
  f' = f /\ (yl + bbox_h f l + sp)%Z = (draw_lines bbox_w bbox_h f sp lines y).2.
Proof.
  revert y ds. induction lines as [|l0 lines IH]; intros y ds; cbn [draw_lines].
  - simpl. intros E. destruct ds; discriminate.
  - destruct (draw_lines bbox_w bbox_h f sp lines (y + bbox_h f l0 + sp)) as [ds0 y0] eqn:E0.
    simpl. intros E. destruct ds as [|d ds].
    + simpl in E. injection E as Ex Ey Ef El Eds. subst.
      destruct lines as [|l1 lines]; cbn [draw_lines] in E0.
      * injection E0 as <-. split; reflexivity.
      * destruct (draw_lines _ _ _ _ lines _). discriminate.
    + simpl in E. injection E as _ E. specialize (IH (y + bbox_h f l0 + sp)%Z ds). rewrite E0 in IH. exact (IH E).
Qed.

Lemma draw_cover_ends (st : shrink_state) (a : attempt) :
  (0 <= spacing st <= title_body_gap st)%Z ->
  let y0 := ((height_px - total_h a) / 2)%Z in
  (forall x y f l ds, draw_cover bbox_w bbox_h st a = (x, y, f, l) :: ds -> y = y0) /\
  (forall x y f l ds, draw_cover bbox_w bbox_h st a = ds ++ [(x, y, f, l)] ->
     (y + bbox_h f l)%Z = (y0 + drawn_height bbox_h st a)%Z).
Proof.
  intros [Hsp Hgap] y0. unfold draw_cover. fold y0.
  destruct (draw_lines_spec (title_font_size a) (spacing st) (wrapped_title a) y0 Hsp) as (T1 & T2 & _).
  pose proof (draw_lines_first (title_font_size a) (spacing st) (wrapped_title a) y0) as TF.
  pose proof (draw_lines_last (title_font_size a) (spacing st) (wrapped_title a) y0) as TL.
  destruct (draw_lines bbox_w bbox_h (title_font_size a) (spacing st) (wrapped_title a) y0)
    as [tds yt] eqn:Et. simpl in T1, T2, TF, TL.
  set (yb := match wrapped_title a, wrapped_body a with
             | _ :: _, _ :: _ => (yt + (title_body_gap st - spacing st))%Z
             | _, _ => yt end).
  assert (Hyb : yb = (yt + gap_term st a)%Z).
  { unfold yb, gap_term. destruct (wrapped_title a), (wrapped_body a); lia. }
  destruct (draw_lines_spec (body_font_size a) (spacing st) (wrapped_body a) yb Hsp) as (B1 & B2 & _).
  pose proof (draw_lines_first (body_font_size a) (spacing st) (wrapped_body a) yb) as BF.
  pose proof (draw_lines_last (body_font_size a) (spacing st) (wrapped_body a) yb) as BL.
  destruct (draw_lines bbox_w bbox_h (body_font_size a) (spacing st) (wrapped_body a) yb)
    as [bds yend] eqn:Eb. simpl in B1, B2, BF, BL.
  assert (Hend : hsum bbox_h (body_font_size a) (spacing st) (wrapped_body a) yb =
                 (y0 + drawn_height bbox_h st a + spacing st)%Z).
  { unfold drawn_height. rewrite Hyb, T1.
    assert (E1 : hsum bbox_h (title_font_size a) (spacing st) (wrapped_title a) y0 =
                 (hsum bbox_h (title_font_size a) (spacing st) (wrapped_title a) 0 + y0)%Z).
    { rewrite <- hsum_shift; try (f_equal; lia). }
    rewrite E1.
    replace (hsum bbox_h (title_font_size a) (spacing st) (wrapped_title a) 0 + y0 + gap_term st a)%Z
      with (hsum bbox_h (title_font_size a) (spacing st) (wrapped_title a) 0 + gap_term st a + y0)%Z
      by lia.
    rewrite hsum_shift. lia. }
  split.
  - intros x y f l ds E. destruct tds as [|d tds].
    + simpl in E. rewrite (BF _ _ _ _ _ E), Hyb.
      assert (Hwt : wrapped_title a = []) by (destruct (wrapped_title a); [reflexivity|discriminate]).
      unfold gap_term. rewrite Hwt. rewrite T1, Hwt. simpl. lia.
    + simpl in E. injection E as E _. subst d. exact (TF _ _ _ _ _ eq_refl).
  - intros x y f l ds E. destruct bds as [|b bds'] using rev_ind.
    + rewrite app_nil_r in E. destruct (TL _ _ _ _ _ E) as [-> Hl].
      assert (Hwb : wrapped_body a = []) by (destruct (wrapped_body a); [reflexivity|discriminate]).
      rewrite Hwb in Hend. change (hsum bbox_h _ _ [] yb) with yb in Hend.
      unfold gap_term in Hyb. rewrite Hwb in Hyb.
      assert (yb = yt) by (destruct (wrapped_title a); lia). lia.
    + rewrite app_assoc in E. apply app_inj_tail in E as [_ Eb1]. subst b.
      destruct (BL _ _ _ _ _ eq_refl) as [-> Hl]. lia.
Qed.

End DrawProofs.

Lemma hsum_lin (bbox_h : Z -> pystr -> Z) (f sp : Z) (lines : list pystr) (y : Z) :
  hsum bbox_h f sp lines y = (hbase bbox_h f lines + y + sp * Z.of_nat (length lines))%Z.
Proof.
  unfold hbase. revert y. induction lines as [|l lines IH]; intros y; [simpl; lia|].
  change (hsum bbox_h f sp (l :: lines) y) with (hsum bbox_h f sp lines (y + bbox_h f l + sp)).
  change (hsum bbox_h f 0 (l :: lines) 0) with (hsum bbox_h f 0 lines (0 + bbox_h f l + 0)).
  replace (0 + bbox_h f l + 0)%Z with (0 + bbox_h f l)%Z by lia.
  rewrite IH, hsum_shift. simpl length. lia.
Qed.

Lemma measure_attempt_fits (bbox_w bbox_h : Z -> pystr -> Z) (title : pystr)
    (body_lines : list pystr) (st : shrink_state) :
  let a := measure_attempt bbox_w bbox_h title body_lines st in
  Forall (fits_or_single (bbox_w (title_font_size a)) max_text_width) (wrapped_title a) /\
  Forall (fits_or_single (bbox_w (body_font_size a)) max_text_width) (wrapped_body a).
Proof.
  unfold measure_attempt. cbn [wrapped_title wrapped_body title_font_size body_font_size].
  split.
  - destruct title; [constructor|apply wrap_text_inv].
  - apply Forall_forall. intros l Hl. apply list_elem_of_In, in_flat_map in Hl as (b & _ & Hb).
    destruct (wrap_text_inv (bbox_w (body_size st)) max_text_width b) as (_ & _ & H).
    rewrite Forall_forall in H. apply H, list_elem_of_In, Hb.
Qed.

Lemma centre_bounds (w : Z) :
  (w <= max_text_width)%Z ->
  (margin <= (width_px - w) / 2)%Z /\ ((width_px - w) / 2 + w <= width_px - margin)%Z.
Proof.
  unfold max_text_width, width_px, margin. intros Hw.
  pose proof (Z.div_mod (1080 - w) 2 ltac:(lia)). pose proof (Z.mod_pos_bound (1080 - w) 2 ltac:(lia)).
  lia.
Qed.

Lemma vcentre_bounds (t : Z) :
  (t <= max_content_height)%Z ->
  (margin <= (height_px - t) / 2)%Z /\ ((height_px - t) / 2 + t <= height_px - margin)%Z.
Proof.
  unfold max_content_height, height_px, margin. intros Ht.
  pose proof (Z.div_mod (1920 - t) 2 ltac:(lia)). pose proof (Z.mod_pos_bound (1920 - t) 2 ltac:(lia)).
  lia.
Qed.

(** X10: when the text fits ([total_h <= 1760]) and the measured line
    heights are non-negative, [gen_cover] draws exactly the wrapped title
    lines and then the wrapped body lines; each one lies vertically
    within the 80-pixel margins and, unless it is a single character,
    horizontally too; the first line starts at [(1920 - total_h) // 2]
    and the last one ends [total_h] lower. *)
Theorem gen_cover_draw_within_margins (bbox_w bbox_h : Z -> pystr -> Z)
    (Hh : forall f l, (0 <= bbox_h f l)%Z) (text : pystr) (st : shrink_state) (a : attempt)
    (Hl : gen_cover_layout bbox_w bbox_h text = Return (st, a))
    (Hfit : (total_h a <= max_content_height)%Z) :
  let draws := draw_cover bbox_w bbox_h st a in
  let y0 := ((height_px - total_h a) / 2)%Z in
  map (fun d => d.2) draws = wrapped_title a ++ wrapped_body a /\
  Forall (fun '(x, y, f, line) =>
            (margin <= y)%Z /\ (y + bbox_h f line <= height_px - margin)%Z /\
            (length line = 1%nat \/
             (margin <= x)%Z /\ (x + bbox_w f line <= width_px - margin)%Z)) draws /\
  (forall x y f l ds, draws = (x, y, f, l) :: ds -> y = y0) /\
  (forall x y f l ds, draws = ds ++ [(x, y, f, l)] -> (y + bbox_h f l)%Z = (y0 + total_h a)%Z).
Proof.
  intros draws y0.
  unfold gen_cover_layout in Hl. destruct (parse_cover_text text) as [title body_lines].
  destruct (shrink_loop_cases bbox_w bbox_h title body_lines) as (st' & a' & E & Hc).
  rewrite E in Hl. injection Hl as -> ->.
  destruct Hc as [(Ha & _ & Hsp)|(_ & _ & Hover)]; [|lia].
  assert (Hd : drawn_height bbox_h st a = total_h a) by (rewrite Ha; apply drawn_height_measure).
  destruct (draw_cover_spec bbox_w bbox_h Hh st a Hsp) as [Hmap Hall].
  destruct (draw_cover_ends bbox_w bbox_h Hh st a Hsp) as [Hfirst Hlast].
  destruct (measure_attempt_fits bbox_w bbox_h title body_lines st) as [Ft Fb].
  rewrite <- Ha in Ft, Fb.
  destruct (vcentre_bounds (total_h a) Hfit) as [V1 V2].
  split; [exact Hmap|]. split; [|split; [exact Hfirst|]].
  - eapply Forall_impl; [exact Hall|]. rewrite Hd. fold y0 in V1, V2.
    intros [[[x y] f] line] Hdl.
    assert (Hfs : fits_or_single (bbox_w f) max_text_width line /\
                  x = ((width_px - bbox_w f line) / 2)%Z /\ (y0 <= y)%Z /\
                  (y + bbox_h f line + spacing st <= y0 + total_h a + spacing st)%Z).
    { destruct Hdl as [(-> & Hin & Hx & Hy1 & Hy2)|(-> & Hin & Hx & Hy1 & Hy2)];
        (split; [|split; [exact Hx|split; assumption]]).
      - rewrite Forall_forall in Ft. apply Ft, list_elem_of_In, Hin.
      - rewrite Forall_forall in Fb. apply Fb, list_elem_of_In, Hin. }
    destruct Hfs as (Hfs & -> & Hy1 & Hy2).
    split; [lia|]. split; [lia|].
    destruct Hfs as [Hw|Hone]; [right; apply centre_bounds, Hw|left; exact Hone].
  - intros x y f l ds Eds. rewrite (Hlast x y f l ds Eds), Hd. reflexivity.
Qed.

Lemma gen_cover_draw_within_margins_witness :
  let bw := fun f (l : pystr) => (f * Z.of_nat (length l))%Z in
  let bh := fun f (_ : pystr) => Z.abs f in
  let text := [97; 98; 10; 99; 100]%N in
  let st := {| title_size := 90; body_size := 60; spacing := 40; title_body_gap := 60 |} in
  let a := {| title_font_size := 90; body_font_size := 60; wrapped_title := [[97; 98]%N];
              wrapped_body := [[99; 100]%N]; total_h := 210 |} in
  (forall f l, (0 <= bh f l)%Z) /\
  gen_cover_layout bw bh text = Return (st, a) /\
  (total_h a <= max_content_height)%Z /\
  (let draws := draw_cover bw bh st a in
   let y0 := ((height_px - total_h a) / 2)%Z in
   map (fun d => d.2) draws = wrapped_title a ++ wrapped_body a /\
   Forall (fun '(x, y, f, line) =>
             (margin <= y)%Z /\ (y + bh f line <= height_px - margin)%Z /\
             (length line = 1%nat \/
              (margin <= x)%Z /\ (x + bw f line <= width_px - margin)%Z)) draws /\
   (forall x y f l ds, draws = (x, y, f, l) :: ds -> y = y0) /\
   (forall x y f l ds, draws = ds ++ [(x, y, f, l)] -> (y + bh f l)%Z = (y0 + total_h a)%Z)).
Proof.
  intros bw bh text st a.
  assert (Hh : forall f l, (0 <= bh f l)%Z) by (intros f l; apply Z.abs_nonneg).
  assert (Hl : gen_cover_layout bw bh text = Return (st, a)) by (vm_compute; reflexivity).
  assert (Hfit : (total_h a <= max_content_height)%Z)
    by (unfold max_content_height, height_px, margin; simpl; lia).
  split; [exact Hh|]. split; [exact Hl|]. split; [exact Hfit|].
  exact (gen_cover_draw_within_margins bw bh Hh text st a Hl Hfit).
Defined.

Lemma gen_cover_overflow_layout (bbox_w bbox_h : Z -> pystr -> Z) (text : pystr)
    (st : shrink_state) (a : attempt)
    (Hl : gen_cover_layout bbox_w bbox_h text = Return (st, a))
    (Hover : (max_content_height < total_h a)%Z) :
  title_font_size a = 40%Z /\ body_font_size a = 26%Z /\
  spacing st = 12%Z /\ title_body_gap st = 20%Z /\
  (total_h a - drawn_height bbox_h st a =
   4 * (Z.of_nat (length (wrapped_title a ++ wrapped_body a)) - 1) +
   match wrapped_title a, wrapped_body a with _ :: _, _ :: _ => 2 | _, _ => 0 end)%Z.
Proof.
  unfold gen_cover_layout in Hl. destruct (parse_cover_text text) as [title body_lines].
  destruct (shrink_loop_cases bbox_w bbox_h title body_lines) as (st' & a' & E & Hc).
  rewrite E in Hl. injection Hl as -> ->.
  destruct Hc as [(_ & Hfit & _)|(Ha & Hst & _)]; [lia|].
  rewrite Hst. cbn [spacing title_body_gap].
  assert (Ht : total_h a = drawn_height bbox_h
                 {| title_size := 40; body_size := 26; spacing := 16; title_body_gap := 26 |} a)
    by (rewrite Ha; symmetry; apply drawn_height_measure).
  assert (Hf : forall s, title_font_size (measure_attempt bbox_w bbox_h title body_lines s) = title_size s /\
                         body_font_size (measure_attempt bbox_w bbox_h title body_lines s) = body_size s)
    by (intros s; split; reflexivity).
  destruct (Hf {| title_size := 40; body_size := 26; spacing := 16; title_body_gap := 26 |}) as [Hf1 Hf2].
  rewrite <- Ha in Hf1, Hf2.
  split; [exact Hf1|]. split; [exact Hf2|].
  split; [reflexivity|]. split; [reflexivity|].
  rewrite Ht. unfold drawn_height, gap_term. cbn [spacing title_body_gap].
  rewrite !(hsum_lin bbox_h (body_font_size a)), !(hsum_lin bbox_h (title_font_size a)), length_app.
  destruct (wrapped_title a), (wrapped_body a); simpl length; lia.
Qed.

(** X11: when the text does not fit even at title size 40, [gen_cover]
    draws with the fonts 40 and 26 measured last but with the spacing 12
    and gap 20 of the next, unused size: the drawn block ends
    [4 * (n - 1)] pixels (plus 2 when both title and body are present)
    above the [total_h] used to centre it, [n] being the number of drawn
    lines. *)
Theorem gen_cover_overflow_spacing (bbox_w bbox_h : Z -> pystr -> Z)
    (Hh : forall f l, (0 <= bbox_h f l)%Z) (text : pystr) (st : shrink_state) (a : attempt)
    (Hl : gen_cover_layout bbox_w bbox_h text = Return (st, a))
    (Hover : (max_content_height < total_h a)%Z) :
  title_font_size a = 40%Z /\ body_font_size a = 26%Z /\
  spacing st = 12%Z /\ title_body_gap st = 20%Z /\
  forall x y f l ds, draw_cover bbox_w bbox_h st a = ds ++ [(x, y, f, l)] ->
    (y + bbox_h f l =
     (height_px - total_h a) / 2 + total_h a -
     (4 * (Z.of_nat (length (wrapped_title a ++ wrapped_body a)) - 1) +
      match wrapped_title a, wrapped_body a with _ :: _, _ :: _ => 2 | _, _ => 0 end))%Z.
Proof.
  destruct (gen_cover_overflow_layout bbox_w bbox_h text st a Hl Hover) as (H1 & H2 & H3 & H4 & H5).
  split; [exact H1|]. split; [exact H2|]. split; [exact H3|]. split; [exact H4|].
  assert (Hsp : (0 <= spacing st <= title_body_gap st)%Z) by lia.
  destruct (draw_cover_ends bbox_w bbox_h Hh st a Hsp) as [_ Hlast].
  intros x y f l ds E. rewrite (Hlast x y f l ds E). lia.
Qed.

Lemma gen_cover_overflow_spacing_witness :
  let bw := fun f (l : pystr) => (f * Z.of_nat (length l))%Z in
  let bh := fun (_ : Z) (_ : pystr) => 1000%Z in
  let text := [97; 10; 98]%N in
  let st := {| title_size := 30; body_size := 20; spacing := 12; title_body_gap := 20 |} in
  let a := {| title_font_size := 40; body_font_size := 26; wrapped_title := [[97]%N];
              wrapped_body := [[98]%N]; total_h := 2026 |} in
  (forall f l, (0 <= bh f l)%Z) /\
  gen_cover_layout bw bh text = Return (st, a) /\
  (max_content_height < total_h a)%Z /\
  title_font_size a = 40%Z /\ body_font_size a = 26%Z /\
  spacing st = 12%Z /\ title_body_gap st = 20%Z /\
  forall x y f l ds, draw_cover bw bh st a = ds ++ [(x, y, f, l)] ->
    (y + bh f l =
     (height_px - total_h a) / 2 + total_h a -
     (4 * (Z.of_nat (length (wrapped_title a ++ wrapped_body a)) - 1) +
      match wrapped_title a, wrapped_body a with _ :: _, _ :: _ => 2 | _, _ => 0 end))%Z.
Proof.
  intros bw bh text st a.
  assert (Hh : forall f l, (0 <= bh f l)%Z) by (intros f l; unfold bh; lia).
  assert (Hl : gen_cover_layout bw bh text = Return (st, a)) by (vm_compute; reflexivity).
  assert (Hover : (max_content_height < total_h a)%Z)
    by (unfold max_content_height, height_px, margin; simpl; lia).
  split; [exact Hh|]. split; [exact Hl|]. split; [exact Hover|].
  exact (gen_cover_overflow_spacing bw bh Hh text st a Hl Hover).
Defined.

Lemma cmd_cover_draw_spec (bottom right : pystr -> Z) (ls : list pystr) (y : Z) :
  let draws := cmd_cover_draw right ls (map bottom ls) y in
  map (fun d => d.2) draws = ls /\
  (forall x y' l ds, draws = (x, y', l) :: ds -> y' = y) /\
  (forall x y' l ds, draws = ds ++ [(x, y', l)] ->
     (y' + bottom l = y + foldr Z.add 0 (map bottom ls) + (Z.of_nat (length ls) - 1) * 20)%Z).
Proof.
  revert y. induction ls as [|l ls IH]; intros y draws; subst draws.
  - split; [reflexivity|]. split; [intros ? ? ? ? E; discriminate E|].
    intros x y' l ds E. destruct ds; discriminate E.
  - cbn [map cmd_cover_draw]. destruct (IH (y + bottom l + 20)%Z) as (H1 & H2 & H3).
    split; [simpl; rewrite H1; reflexivity|]. split; [intros ? ? ? ? E; injection E as _ <- _ _; reflexivity|].
    intros x y' l' ds E. destruct ds as [|d ds].
    + simpl in E. injection E as _ <- <- Erest.
      destruct ls as [|l1 ls]; [simpl; lia|discriminate Erest].
    + simpl in E. injection E as _ E. rewrite (H3 _ _ _ _ E).
      cbn [foldr length]. lia.
Qed.

(** X12: [cmd_cover] draws every line of the text, the first one at
    [(1920 - total_h) // 2]; the last one ends [total_h] lower, so the
    space left below is the space above or one pixel more. *)
Theorem cmd_cover_centred (bottom right : pystr -> Z) (text : pystr) :
  let lines := split_on 10 (replace_escaped_newline text) in
  let total_h := (cmd_cover_layout bottom right text).1 in
  let draws := (cmd_cover_layout bottom right text).2 in
  let y0 := ((1920 - total_h) / 2)%Z in
  map (fun d => d.2) draws = lines /\
  (forall x y l ds, draws = (x, y, l) :: ds -> y = y0) /\
  (forall x y l ds, draws = ds ++ [(x, y, l)] ->
     (y + bottom l = y0 + total_h)%Z /\ (0 <= (1920 - (y + bottom l)) - y0 <= 1)%Z).
Proof.
  intros lines total_h draws y0. unfold draws, total_h, y0, cmd_cover_layout. cbn zeta. cbn [fst snd].
  fold lines.
  destruct (cmd_cover_draw_spec bottom right lines
              ((1920 - (foldr Z.add 0 (map bottom lines) + (Z.of_nat (length lines) - 1) * 20)) / 2)%Z)
    as (H1 & H2 & H3).
  split; [exact H1|]. split; [exact H2|].
  intros x y l ds E. specialize (H3 x y l ds E).
  set (T := (foldr Z.add 0 (map bottom lines) + (Z.of_nat (length lines) - 1) * 20)%Z) in *.
  assert (ET : total_h = T) by reflexivity. rewrite ET.
  assert (ETd : T = (foldr Z.add 0 (map bottom lines) + (Z.of_nat (length lines) - 1) * 20)%Z)
    by reflexivity.
  pose proof (Z.div_mod (1920 - T) 2 ltac:(lia)). pose proof (Z.mod_pos_bound (1920 - T) 2 ltac:(lia)).
  split; lia.
Qed.

(** ** Re-splitting a subtitle text *)

Lemma force_split_zero (fuel : nat) (seg : pystr) :
  seg <> [] -> force_split fuel 0 seg = None.
Proof.
  revert seg. induction fuel as [|fuel IH]; intros seg Hs; [reflexivity|].
  destruct seg as [|c seg]; [congruence|].
  cbn [force_split length drop Nat.ltb Nat.leb].
  rewrite IH by discriminate. reflexivity.
Qed.

(** X13: for [max_chars >= 1], [split_text] returns, for every non-empty
    text, a list of non-empty parts of at most [max_chars] characters
    whose concatenation is the text. *)
Theorem split_text_parts (text : pystr) (max_chars : nat)
    (Hm : (1 <= max_chars)%nat) (Ht : text <> []) :
  exists parts, split_text text max_chars = Return parts /\ concat parts = text /\
    Forall (fun p => p <> [] /\ (length p <= max_chars)%nat) parts.
Proof.
  unfold split_text.
  destruct (Nat.leb_spec (length text) max_chars) as [Hle|Hgt].
  - eexists. split; [reflexivity|]. split; [simpl; apply app_nil_r|].
    constructor; [|constructor]. split; assumption.
  - destruct (punct_segments_inv max_chars text) as [Hcat _].
    destruct (force_split_all_spec max_chars Hm (punct_segments max_chars text))
      as (r & Hr & Hc & Hf).
    rewrite Hr. destruct r as [|p ps].
    + simpl in Hc. rewrite Hcat in Hc. congruence.
    + eexists. split; [reflexivity|]. split; [rewrite Hc; exact Hcat|exact Hf].
Qed.

Lemma split_text_parts_witness :
  (1 <= 20)%nat /\ [20320; 22909; 65292]%N ++ repeat 97%N 25 <> [] /\
  exists parts, split_text ([20320; 22909; 65292]%N ++ repeat 97%N 25) 20 = Return parts /\
    concat parts = [20320; 22909; 65292]%N ++ repeat 97%N 25 /\
    Forall (fun p => p <> [] /\ (length p <= 20)%nat) parts.
Proof.
  assert (Hm : (1 <= 20)%nat) by lia.
  assert (Ht : [20320; 22909; 65292]%N ++ repeat 97%N 25 <> []) by discriminate.
  split; [exact Hm|]. split; [exact Ht|].
  exact (split_text_parts _ 20 Hm Ht).
Defined.

(** X15: with [max_chars = 0], [split_text] never returns for a non-empty
    text: its forced-split loop appends the empty slice [seg[:0]] and
    keeps the segment [seg[0:]] unchanged. *)
Theorem split_text_zero_diverges (text : pystr) (Ht : text <> []) :
  split_text text 0 = Diverge.
Proof.
  unfold split_text. destruct (Nat.leb_spec (length text) 0) as [Hle|_].
  { destruct text; [congruence|simpl in Hle; lia]. }
  destruct (punct_segments_inv 0 text) as [Hcat Hne].
  destruct (punct_segments 0 text) as [|seg segs]; [simpl in Hcat; congruence|].
  inversion Hne as [|? ? Hseg _]; subst.
  cbn [force_split_all]. rewrite force_split_zero by exact Hseg. reflexivity.
Qed.

Lemma split_text_zero_diverges_witness :
  [104; 105; 65292; 106]%N <> [] /\ split_text [104; 105; 65292; 106]%N 0 = Diverge.
Proof.
  assert (Ht : [104; 105; 65292; 106]%N <> []) by discriminate.
  split; [exact Ht|]. exact (split_text_zero_diverges _ Ht).
Defined.

(** ** Cue texts of the word-timestamp mode *)

Lemma whisper_concat_fold (max_chars : nat) (l : list (pystr * Q * Q)) (st : wstate) :
  concat (map wcue_text (srt_blocks (fold_left (whisper_step max_chars) l st))) ++
    current_text (fold_left (whisper_step max_chars) l st) =
  concat (map wcue_text (srt_blocks st)) ++ current_text st ++
    concat (map (fun w => w.1.1) l).
Proof.
  revert st. induction l as [|[[wtext s] e] l IH]; intros st; cbn [fold_left map concat].
  - rewrite app_nil_r. reflexivity.
  - rewrite IH. cbn [fst]. unfold whisper_step.
    destruct wtext as [|ch wt]; [reflexivity|]. cbv zeta.
    match goal with |- context [if ?b then _ else _] => destruct b end;
      cbn [srt_blocks current_text];
      rewrite ?map_app, ?concat_app; cbn [map concat wcue_text];
      rewrite ?app_nil_r, <- ?app_assoc; reflexivity.
Qed.

(** X14: in the word-timestamp mode, every cue text is non-empty and is
    at most [max_chars] characters long or one whole transcribed word;
    and the cue texts, concatenated, are the word texts concatenated: no
    character is dropped, repeated or reordered. *)
Theorem whisper_cue_texts (max_chars : nat) (words : list (pystr * Q * Q))
    (cues : list wcue) (Hw : whisper_cues max_chars words = Some cues) :
  Forall (fun c => wcue_text c <> [] /\
                   ((length (wcue_text c) <= max_chars)%nat \/
                    exists ws we, In (wcue_text c, ws, we) words)) cues /\
  concat (map wcue_text cues) = concat (map (fun w => w.1.1) words).
Proof.
  split; [exact (whisper_cues_ok max_chars words cues Hw)|].
  pose proof (whisper_concat_fold max_chars words whisper_init) as Hcat.
  cbn [srt_blocks current_text whisper_init map concat app] in Hcat.
  unfold whisper_cues in Hw.
  set (st := fold_left (whisper_step max_chars) words whisper_init) in *.
  destruct words as [|w ws]; [discriminate|].
  injection Hw as <-.
  destruct (current_text st) as [|ch t] eqn:Et.
  - rewrite app_nil_r in Hcat. exact Hcat.
  - rewrite map_app, concat_app. cbn [map concat wcue_text]. rewrite app_nil_r. exact Hcat.
Qed.

Lemma whisper_cue_texts_witness :
  let words := [([97; 98]%N, 0, 1); (repeat 99%N 20, 1, 2)] in
  let cues := [{| wcue_index := 1; wcue_start := Some 0; wcue_end := Some 1;
                  wcue_text := [97; 98]%N |};
               {| wcue_index := 2; wcue_start := Some 1; wcue_end := Some 2;
                  wcue_text := repeat 99%N 20 |}] in
  whisper_cues 20 words = Some cues /\
  Forall (fun c => wcue_text c <> [] /\
                   ((length (wcue_text c) <= 20)%nat \/
                    exists ws we, In (wcue_text c, ws, we) words)) cues /\
  concat (map wcue_text cues) = concat (map (fun w => w.1.1) words).
Proof.
  intros words cues.
  assert (Hw : whisper_cues 20 words = Some cues) by reflexivity.
  split; [exact Hw|]. exact (whisper_cue_texts 20 words cues Hw).
Defined.
